(** * word_definitions/build.js: the dictionary converter

    A shallow embedding of [src/word_definitions/build.js] and the
    properties of its aggregation and writing stages.

    The script reads a line-delimited JSON dictionary, keeps the records
    whose headword has no character outside [a-z], folds them into the
    global object [words] (keyed by the headword with the suffix [_tr]),
    and on the parser's [end] event sorts the keys and writes one JSON
    line per key to [defs.json]. *)

From Stdlib Require Import List NArith Lia Bool String Ascii.
From Stdlib Require Import Permutation Sorting.Sorted.
Import ListNotations.

Local Open Scope N_scope.

(* ================================================================= *)
(** ** JavaScript strings *)

(** A JavaScript string is a sequence of UTF-16 code units. *)
Definition code_unit := N.
Definition jsstring := list code_unit.

(** A string literal of the source (all of them are ASCII). *)
Definition js (s : string) : jsstring :=
  map N_of_ascii (list_ascii_of_string s).

(** [===] on strings. *)
Fixpoint str_eqb (a b : jsstring) : bool :=
  match a, b with
  | [], [] => true
  | x :: a', y :: b' => (x =? y) && str_eqb a' b'
  | _, _ => false
  end.

(** The comparison behind [<] on strings and behind the default
    comparator of [Array.prototype.sort]: code unit by code unit, a proper
    prefix first. *)
Fixpoint str_compare (a b : jsstring) : comparison :=
  match a, b with
  | [], [] => Eq
  | [], _ :: _ => Lt
  | _ :: _, [] => Gt
  | x :: a', y :: b' =>
      match x ?= y with
      | Eq => str_compare a' b'
      | c => c
      end
  end.

Definition str_ltb (a b : jsstring) : bool :=
  match str_compare a b with Lt => true | _ => false end.

Definition str_lt (a b : jsstring) : Prop := str_compare a b = Lt.

(* ================================================================= *)
(** ** Truthiness and [||] *)

(** [ToBoolean] on the two kinds of values the script tests: a string is
    truthy unless it is empty, an array is always truthy (also when it is
    empty).  A member that is missing reads as [undefined], which is
    falsy; it is [None] below. *)
Class Truthy (A : Type) := truthy : A -> bool.

#[export] Instance string_truthy : Truthy jsstring :=
  fun s => match s with [] => false | _ :: _ => true end.

#[export] Instance array_truthy {A : Type} : Truthy (list A) | 10 :=
  fun _ => true.

(** [x || y] where both operands may be [undefined]. *)
Definition js_or {A : Type} `{Truthy A} (x y : option A) : option A :=
  match x with
  | Some v => if truthy v then x else y
  | None => y
  end.

(** [x || d] where the right operand is a value. *)
Definition js_or_else {A : Type} `{Truthy A} (x : option A) (d : A) : A :=
  match x with
  | Some v => if truthy v then v else d
  | None => d
  end.

(** [!def] on a string. *)
Definition js_not (def : jsstring) : bool := negb (string_truthy def).

(* ================================================================= *)
(** ** Arrays *)

(** [Array.prototype.flatMap] with a callback that returns arrays. *)
Definition flatMap {A B : Type} (f : A -> list B) (l : list A) : list B :=
  flat_map f l.

(** [Array.prototype.some]. *)
Definition some {A : Type} (p : A -> bool) (l : list A) : bool :=
  existsb p l.

(** [Array.prototype.push]. *)
Definition push {A : Type} (l : list A) (x : A) : list A := l ++ [x].

(** [Array.prototype.sort()] without a comparator, on strings: the sorted
    arrangement under [str_compare].  The order is total and equal keys
    are identical, so every sorting algorithm returns this list
    (see [sort_unique]). *)
Fixpoint sort_insert (x : jsstring) (l : list jsstring) : list jsstring :=
  match l with
  | [] => [x]
  | y :: l' => if str_ltb y x then y :: sort_insert x l' else x :: y :: l'
  end.

Fixpoint sort (l : list jsstring) : list jsstring :=
  match l with
  | [] => []
  | x :: l' => sort_insert x (sort l')
  end.

(* ================================================================= *)
(** ** The two regular expressions *)

Definition is_lower (c : code_unit) : bool := (97 <=? c) && (c <=? 122).

(** [/[^a-z]/.test(w)]: some code unit of [w] is outside [a-z]. *)
Definition test_non_lower (w : jsstring) : bool :=
  existsb (fun c => negb (is_lower c)) w.

(** [key.replace(/_tr$/, '')]: the leftmost position at which [_tr] is
    followed by the end of the input is found and the match removed; a
    key without such a position is returned as it is. *)
Fixpoint replace_tr (key : jsstring) : jsstring :=
  if str_eqb key (js "_tr") then []
  else match key with
       | [] => []
       | c :: rest => c :: replace_tr rest
       end.

(* ================================================================= *)
(** ** Data model *)

(** One element of [senses]; a member that is missing is [None]. *)
Record sense := {
  raw_glosses : option (list jsstring);
  glosses : option (list jsstring)
}.

(** One parsed input line. *)
Record word_json := {
  word : jsstring;
  pos : option jsstring;
  senses : list sense;
  etymology_text : option jsstring
}.

(** [out_obj], the object literal [{pos, defs}] of [writeWord]. *)
Module Out.

Record obj := { pos : option jsstring; defs : list jsstring }.

(** [out_obj.etymology_text]: the literal has the members [pos] and
    [defs] only, so this read yields [undefined]. *)
Definition etymology_text (o : obj) : option jsstring := None.

(** [out_obj.defs] after a [push]: the same object with the longer
    array. *)
Definition set_defs (o : obj) (d : list jsstring) : obj :=
  {| pos := pos o; defs := d |}.

End Out.
Definition out_obj : Type := Out.obj.

(** The global object [words]: own properties in creation order, which is
    the order of [Object.keys] for keys that are not array indices. *)
Definition words_t := list (jsstring * list out_obj).

(** [words[key]] as a read.  Every key the script uses ends in [_tr], and
    no property of [Object.prototype] does, so only own properties are
    found. *)
Fixpoint words_get (key : jsstring) (ws : words_t) : option (list out_obj) :=
  match ws with
  | [] => None
  | (k, v) :: ws' => if str_eqb k key then Some v else words_get key ws'
  end.

(** [words[key] = v]: an existing property keeps its place, a new one is
    created last. *)
Fixpoint words_set (key : jsstring) (v : list out_obj) (ws : words_t) : words_t :=
  match ws with
  | [] => [(key, v)]
  | (k, v') :: ws' =>
      if str_eqb k key then (k, v) :: ws' else (k, v') :: words_set key v ws'
  end.

Definition Object_keys (ws : words_t) : list jsstring := map fst ws.

(* ================================================================= *)
(** ** Process state *)

(** What the script prints.  One event stands for the consecutive
    calls that print one message: the three [console.error] of lines
    42-44, the four [console.warn] of lines 47-50, the five [console.log]
    of lines 92-96 with their five figures, the three [console.error] of
    lines 9-11. *)
Inductive console_event :=
| error_bad_def (w : jsstring) (o : out_obj) (r : word_json)
| warn_no_defs (r : word_json)
| log_processed (written skipped : N)
| log_separator
| log_sorting
| log_writing
| log_summary (ingested processed skipped total output : N)
| error_not_all_processed
| error_need_dictionary.

(** The array [[key.replace(/_tr$/, ''), words[key]]] that one call of
    [JSON.stringify] receives; the second component is [None] when
    [words[key]] is [undefined]. *)
Definition written_line : Type := jsstring * option (list out_obj).

(** The module-level variables of the script, with the console, the
    write stream of line 84 and the file [defs.json].

    [stream] is [None] until [fs.createWriteStream] is called, then the
    values handed to [stream.write] so far, in order.  The stream opens
    the file and writes to it asynchronously: nothing it was handed
    reaches the disk while a handler is still running.

    [defs_json] is the file as this run has written it: [None] as long as
    the run has written nothing to it.

    The counters are JavaScript numbers; they stay far below 2^53, where
    [+ 1] is exact. *)
Record state := {
  written : N;
  skipped : N;
  writable : N;
  words : words_t;
  console : list console_event;
  stream : option (list written_line);
  defs_json : option (list written_line)
}.

Definition init : state :=
  {| written := 0; skipped := 0; writable := 0; words := []; console := [];
     stream := None; defs_json := None |}.

Definition set_written (n : N) (st : state) : state :=
  {| written := n; skipped := skipped st; writable := writable st;
     words := words st; console := console st; stream := stream st;
     defs_json := defs_json st |}.

Definition set_skipped (n : N) (st : state) : state :=
  {| written := written st; skipped := n; writable := writable st;
     words := words st; console := console st; stream := stream st;
     defs_json := defs_json st |}.

Definition set_writable (n : N) (st : state) : state :=
  {| written := written st; skipped := skipped st; writable := n;
     words := words st; console := console st; stream := stream st;
     defs_json := defs_json st |}.

Definition set_words (ws : words_t) (st : state) : state :=
  {| written := written st; skipped := skipped st; writable := writable st;
     words := ws; console := console st; stream := stream st;
     defs_json := defs_json st |}.

Definition set_stream (f : option (list written_line)) (st : state) : state :=
  {| written := written st; skipped := skipped st; writable := writable st;
     words := words st; console := console st; stream := f;
     defs_json := defs_json st |}.

Definition set_defs_json (f : option (list written_line)) (st : state) : state :=
  {| written := written st; skipped := skipped st; writable := writable st;
     words := words st; console := console st; stream := stream st;
     defs_json := f |}.

Definition print (e : console_event) (st : state) : state :=
  {| written := written st; skipped := skipped st; writable := writable st;
     words := words st; console := console st ++ [e]; stream := stream st;
     defs_json := defs_json st |}.

(** What a handler does to the process: it returns, it calls
    [process.exit(code)], or it throws. *)
Inductive step :=
| Continue (st : state)
| Exit (code : N) (st : state)
| Throw (st : state).

(* ================================================================= *)
(** ** [writeWord] *)

(** The callback of [flatMap]: [sense.raw_glosses || sense.glosses || []]. *)
Definition sense_defs (s : sense) : list jsstring :=
  js_or_else (H := array_truthy)
    (js_or (H := array_truthy) (raw_glosses s) (glosses s)) [].

(** The object literal of lines 34-37. *)
Definition make_out_obj (r : word_json) : out_obj :=
  {| Out.pos := pos r; Out.defs := flatMap sense_defs (senses r) |}.

(** Lines 38-40: the fallback when [defs] is empty. *)
Definition fallback (o : out_obj) : out_obj :=
  if N.of_nat (List.length (Out.defs o)) =? 0
  then Out.set_defs o
         (push (Out.defs o)
               (js_or_else (H := string_truthy) (Out.etymology_text o)
                           (js "No definition found")))
  else o.

(** [out_obj] as it stands when line 41 is reached. *)
Definition build_out_obj (r : word_json) : out_obj := fallback (make_out_obj r).

(** The template literal of line 53. *)
Definition word_key (w : jsstring) : jsstring := w ++ js "_tr".

Definition writeWord (r : word_json) (st : state) : step :=
  if test_non_lower (word r) then
    Continue (set_skipped (skipped st + 1) st)
  else
    let out_obj := build_out_obj r in
    if some js_not (Out.defs out_obj) then
      Exit 1 (print (error_bad_def (word r) out_obj r) st)
    else
      let st :=
        if N.of_nat (List.length (Out.defs out_obj)) =? 0
        then print (warn_no_defs r) st
        else st in
      let word_key := word_key (word r) in
      let st :=
        set_words
          (words_set word_key
             (js_or_else (H := array_truthy) (words_get word_key (words st)) [])
             (words st))
          st in
      match words_get word_key (words st) with
      | None => Throw st
      | Some entries =>
          let st := set_words (words_set word_key (push entries out_obj) (words st)) st in
          let st := set_written (written st + 1) st in
          Continue
            (if written st mod 5000 =? 0
             then print (log_processed (written st) (skipped st)) st
             else st)
      end.

(* ================================================================= *)
(** ** The event handlers *)

(** [rl.on('line')] counts the line and hands it to the parser; the
    parser is the [jsonlines] package, which calls the [data] handler with
    the value it decoded from the line.  A line is given here by what the
    parser emits for it: [Some r], or [None] when it emits nothing.  The
    [line] handler touches [writable] only and the [data] handler never
    reads it, so running the two handlers of a line back to back gives
    the state any interleaving of the two event streams gives. *)
Definition line := option word_json.

Definition on_line (l : line) (st : state) : step :=
  let st := set_writable (writable st + 1) st in
  match l with
  | Some r => writeWord r st
  | None => Continue st
  end.

(** The parse phase: every line of the input in file order, stopped by
    the first handler that does not return. *)
Fixpoint feed (ls : list line) (st : state) : step :=
  match ls with
  | [] => Continue st
  | l :: ls' =>
      match on_line l st with
      | Continue st' => feed ls' st'
      | stopped => stopped
      end
  end.

(** The records the parser emitted. *)
Definition records (ls : list line) : list word_json :=
  flat_map (fun l => match l with Some r => [r] | None => [] end) ls.

(** The array handed to [JSON.stringify] for one key. *)
Definition line_value (ws : words_t) (key : jsstring) : written_line :=
  (replace_tr key, words_get key ws).

(** [stream.write] of one line: the stream takes the value and holds
    it. *)
Definition stream_write (v : written_line) (st : state) : state :=
  set_stream
    (match stream st with
     | Some lines => Some (push lines v)
     | None => None
     end) st.

(** The loop [for (const key of keys)] of the [end] handler. *)
Fixpoint write_keys (keys : list jsstring) (st : state) : state :=
  match keys with
  | [] => st
  | key :: keys' => write_keys keys' (stream_write (line_value (words st) key) st)
  end.

(** The [end] handler of the parser.  [stream.end()] of line 88 asks
    the stream to close the file once it has written what it holds; it
    changes nothing while the handler runs. *)
Definition on_end (st : state) : step :=
  let st := print log_separator st in
  let st := print log_sorting st in
  let keys := sort (Object_keys (words st)) in
  let st := print log_writing st in
  let st := set_stream (Some []) st in
  let st := write_keys keys st in
  let st := print log_separator st in
  let st :=
    print (log_summary (writable st) (written st) (skipped st)
                       (written st + skipped st) (N.of_nat (List.length keys))) st in
  if negb (written st + skipped st =? writable st)
  then Exit 1 (print error_not_all_processed st)
  else Continue st.

(** The outcome of a run: the exit status and the state the process
    ends in, with what it has written to [defs.json]. *)
Record result := {
  exit_code : N;
  final : state
}.

(** The exit status of a process that dies of an uncaught exception. *)
Definition uncaught : N := 1.

(** A process whose last handler has returned ends when the event loop
    has nothing left to do; by then the stream has written to the file
    all it was handed. *)
Definition flush (st : state) : state :=
  match stream st with
  | Some lines => set_defs_json (Some lines) st
  | None => st
  end.

(** The end of the process.  After [process.exit] (and after an uncaught
    exception) the event loop does not run again: what the stream holds
    is dropped and never reaches the file. *)
Definition finish (s : step) : result :=
  match s with
  | Continue st => {| exit_code := 0; final := flush st |}
  | Exit c st => {| exit_code := c; final := st |}
  | Throw st => {| exit_code := uncaught; final := st |}
  end.

(** The whole script.  [input] is [None] when [input_file] does not
    exist. *)
Definition main (input : option (list line)) : result :=
  match input with
  | None => finish (Exit 1 (print error_need_dictionary init))
  | Some ls =>
      match feed ls init with
      | Continue st => finish (on_end st)
      | stopped => finish stopped
      end
  end.

(** The lines this run has written to [defs.json], and their keys. *)
Definition output (res : result) : list written_line :=
  match defs_json (final res) with
  | Some lines => lines
  | None => []
  end.

Definition output_keys (res : result) : list jsstring := map fst (output res).

(* ================================================================= *)
(** ** [JSON.stringify] *)

(** The JSON values the script serialises. *)
#[warnings="-register-all"] Inductive json :=
| JNull
| JString (s : jsstring)
| JArray (items : list json)
| JObject (members : list (jsstring * json)).

(** One property of an object under [JSON.stringify]: a property whose
    value is [undefined] is left out. *)
Definition member (name : jsstring) (v : option json) : list (jsstring * json) :=
  match v with
  | Some j => [(name, j)]
  | None => []
  end.

(** [out_obj] as [JSON.stringify] sees it: its properties in creation
    order, [pos] then [defs]. *)
Definition json_of_out (o : out_obj) : json :=
  JObject (member (js "pos") (option_map JString (Out.pos o))
           ++ member (js "defs") (Some (JArray (map JString (Out.defs o))))).

(** The two-element array of one line; an [undefined] array element is
    serialised as [null]. *)
Definition json_of_line (v : written_line) : json :=
  JArray [JString (fst v);
          match snd v with
          | Some entries => JArray (map json_of_out entries)
          | None => JNull
          end].

Definition hex_digit (d : N) : code_unit :=
  if d <? 10 then 48 + d else 87 + d.

(** [UnicodeEscape]: a backslash, [u] and four lowercase hex digits. *)
Definition unicode_escape (c : code_unit) : jsstring :=
  [92; 117; hex_digit (c / 4096 mod 16); hex_digit (c / 256 mod 16);
   hex_digit (c / 16 mod 16); hex_digit (c mod 16)].

Definition is_high_surrogate (c : code_unit) : bool := (55296 <=? c) && (c <=? 56319).
Definition is_low_surrogate (c : code_unit) : bool := (56320 <=? c) && (c <=? 57343).

(** One code unit that is not the first half of a surrogate pair. *)
Definition escape_unit (c : code_unit) : jsstring :=
  if c =? 8 then [92; 98]
  else if c =? 9 then [92; 116]
  else if c =? 10 then [92; 110]
  else if c =? 12 then [92; 102]
  else if c =? 13 then [92; 114]
  else if c =? 34 then [92; 34]
  else if c =? 92 then [92; 92]
  else if (c <? 32) || is_low_surrogate c then unicode_escape c
  else [c].

(** [QuoteJSONString] without the enclosing quotes: a surrogate pair is
    kept, a lone surrogate is escaped. *)
Fixpoint quote_body (s : jsstring) : jsstring :=
  match s with
  | [] => []
  | c :: rest =>
      if is_high_surrogate c then
        match rest with
        | d :: rest' =>
            if is_low_surrogate d then c :: d :: quote_body rest'
            else unicode_escape c ++ quote_body rest
        | [] => unicode_escape c
        end
      else escape_unit c ++ quote_body rest
  end.

Definition quote (s : jsstring) : jsstring := [34] ++ quote_body s ++ [34].

(** [JSON.stringify] without indentation. *)
Fixpoint render (j : json) : jsstring :=
  match j with
  | JNull => js "null"
  | JString s => quote s
  | JArray items =>
      let fix elements (l : list json) : jsstring :=
        match l with
        | [] => []
        | x :: l' =>
            match l' with
            | [] => render x
            | _ :: _ => render x ++ js "," ++ elements l'
            end
        end in
      js "[" ++ elements items ++ js "]"
  | JObject members =>
      let fix properties (l : list (jsstring * json)) : jsstring :=
        match l with
        | [] => []
        | (k, v) :: l' =>
            match l' with
            | [] => quote k ++ js ":" ++ render v
            | _ :: _ => quote k ++ js ":" ++ render v ++ js "," ++ properties l'
            end
        end in
      js "{" ++ properties members ++ js "}"
  end.

(** The text of one line: [JSON.stringify([...]) + "\n"]. *)
Definition stringify_line (v : written_line) : jsstring :=
  render (json_of_line v) ++ [10].

(** The text this run has written to [defs.json]. *)
Definition file_text (res : result) : jsstring :=
  flat_map stringify_line (output res).

(* ================================================================= *)
(** ** Vocabulary of the statements *)

(** A record that passes the filter of line 29. *)
Definition kept (r : word_json) : bool := negb (test_non_lower (word r)).

(** A record whose final [defs] has no falsy element. *)
Definition clean (r : word_json) : bool :=
  negb (some js_not (Out.defs (build_out_obj r))).

(** Lines 54-55 taken together: [out_obj] goes to the end of the array
    under [key], which is created first when the key is new. *)
Definition words_push (key : jsstring) (o : out_obj) (ws : words_t) : words_t :=
  words_set key
    (match words_get key ws with
     | Some entries => entries ++ [o]
     | None => [o]
     end) ws.

(** The aggregation map after the records [rs], all kept, starting from
    [ws]. *)
Definition aggregate (rs : list word_json) (ws : words_t) : words_t :=
  fold_left (fun ws r => words_push (word_key (word r)) (build_out_obj r) ws) rs ws.

(** The array under [key], or the empty array when the key is absent. *)
Definition entries_at (key : jsstring) (ws : words_t) : list out_obj :=
  match words_get key ws with
  | Some entries => entries
  | None => []
  end.

(** The records of a run with the headword [w], in input order. *)
Definition records_of (w : jsstring) (ls : list line) : list word_json :=
  filter (fun r => str_eqb (word r) w) (records ls).

(** The state after a record has been stored, up to the console. *)
Definition stored (r : word_json) (st st' : state) : Prop :=
  words st' = words_push (word_key (word r)) (build_out_obj r) (words st) /\
  written st' = written st + 1 /\
  skipped st' = skipped st /\
  writable st' = writable st /\
  defs_json st' = defs_json st /\
  (console st' = console st \/
   console st' = console st ++ [log_processed (written st + 1) (skipped st)]).

(** The lines the [end] handler hands to the stream. *)
Definition end_lines (st : state) : list written_line :=
  map (line_value (words st)) (sort (Object_keys (words st))).

(** No kept record of the input has a falsy definition: the run is not
    halted by line 45. *)
Definition all_clean (ls : list line) : bool :=
  forallb (fun r => implb (kept r) (clean r)) (records ls).

(** The warning of lines 47-50 has not been printed. *)
Definition never_warned (st : state) : Prop :=
  forall r, ~ In (warn_no_defs r) (console st).

(** The state a handler leaves behind, however it finished. *)
Definition state_of (s : step) : state :=
  match s with
  | Continue st => st
  | Exit _ st => st
  | Throw st => st
  end.

(** Every entry of the map has at least one definition. *)
Definition defs_nonempty (ws : words_t) : Prop :=
  forall key entries o,
    In (key, entries) ws -> In o entries -> Out.defs o <> [].

(** Each of the keys is a headword over [a-z] followed by [_tr]. *)
Definition keys_escaped (keys : list jsstring) : Prop :=
  forall key, In key keys ->
    exists w, key = word_key w /\ test_non_lower w = false.

(** [<=] on strings. *)
Definition str_le (a b : jsstring) : Prop := str_compare a b <> Gt.

(** The spec's wording of the contribution of one sense: [raw_glosses]
    when present and non-empty, else [glosses] when present and non-empty,
    else nothing. *)
Definition claimed_sense_defs (s : sense) : list jsstring :=
  match raw_glosses s with
  | Some (g :: gs) => g :: gs
  | _ =>
      match glosses s with
      | Some (g :: gs) => g :: gs
      | _ => []
      end
  end.

(** The contribution of one sense by presence alone: [raw_glosses] when
    present, else [glosses] when present, else nothing. *)
Definition present_sense_defs (s : sense) : list jsstring :=
  match raw_glosses s with
  | Some gs => gs
  | None =>
      match glosses s with
      | Some gs => gs
      | None => []
      end
  end.

(** The spec's wording of the fallback element: [etymology_text] when
    present, else the placeholder. *)
Definition claimed_fallback (r : word_json) : jsstring :=
  match etymology_text r with
  | Some e => e
  | None => js "No definition found"
  end.

(** The spec's pattern [^[a-z]+$]: at least one character, all in
    [a-z]. *)
Definition claimed_match (w : jsstring) : bool :=
  match w with
  | [] => false
  | _ :: _ => forallb is_lower w
  end.

(** A progress notice of line 59. *)
Definition is_progress (e : console_event) : bool :=
  match e with
  | log_processed _ _ => true
  | _ => false
  end.

(** The number of progress notices on the console. *)
Definition progress_notices (c : list console_event) : N :=
  N.of_nat (List.length (filter is_progress c)).

(** A line for which the parser emitted a record. *)
Definition emitted (l : line) : bool :=
  match l with
  | Some _ => true
  | None => false
  end.

(** The number of entries in one written line, and in the map. *)
Definition line_entries (v : written_line) : nat :=
  match snd v with
  | Some entries => List.length entries
  | None => 0%nat
  end.

Definition total_entries (ws : words_t) : nat :=
  list_sum (map (fun p => List.length (snd p)) ws).

(** A code unit from 0x20 up, that is, not one of the control characters
    U+0000 to U+001F (line feed and carriage return among them).  DEL
    and the code units from U+0080 up are included. *)
Definition above_c0 (c : code_unit) : Prop := 32 <= c.

(** The summary the [end] handler prints for the input [ls], given the
    number of keys of the map. *)
Definition summary_of (ls : list line) (output_lines : nat) : console_event :=
  log_summary (N.of_nat (List.length ls))
              (N.of_nat (List.length (filter kept (records ls))))
              (N.of_nat (List.length
                 (filter (fun r => test_non_lower (word r)) (records ls))))
              (N.of_nat (List.length (records ls)))
              (N.of_nat output_lines).

(** The map of [st'] extends the map of [st]: the keys of [st] come
    first and in the same order, and the array of every key starts with
    what it held in [st]. *)
Definition extends (st st' : state) : Prop :=
  (exists new_keys,
      Object_keys (words st') = Object_keys (words st) ++ new_keys) /\
  (forall key, exists extra,
      entries_at key (words st') = entries_at key (words st) ++ extra).

(* ----------------------------------------------------------------- *)
(** *** Sample records *)

Definition only_glosses (gs : list jsstring) : sense :=
  {| raw_glosses := None; glosses := Some gs |}.

(** Scenario A. *)
Definition cat : word_json :=
  {| word := js "cat"; pos := Some (js "noun");
     senses := [only_glosses [js "a small domesticated feline"]];
     etymology_text := None |}.

(** Scenario B. *)
Definition Dog : word_json :=
  {| word := js "Dog"; pos := Some (js "noun");
     senses := [only_glosses [js "a domesticated canine"]];
     etymology_text := None |}.

(** Scenario C. *)
Definition run_noun : word_json :=
  {| word := js "run"; pos := Some (js "noun");
     senses := [only_glosses [js "an act of running"]];
     etymology_text := None |}.

Definition run_verb : word_json :=
  {| word := js "run"; pos := Some (js "verb");
     senses := [only_glosses [js "to move quickly"]];
     etymology_text := None |}.

(** Scenario D. *)
Definition no_glosses : word_json :=
  {| word := js "zzz"; pos := Some (js "intj");
     senses := [{| raw_glosses := None; glosses := None |}];
     etymology_text := None |}.

(** A record without definitions that has an etymology. *)
Definition etymology_only : word_json :=
  {| word := js "cat"; pos := Some (js "noun"); senses := [];
     etymology_text := Some (js "From Latin cattus") |}.

(** A sense whose [raw_glosses] is the empty array. *)
Definition empty_raw : word_json :=
  {| word := js "ab"; pos := Some (js "noun");
     senses := [{| raw_glosses := Some []; glosses := Some [js "a muscle"] |}];
     etymology_text := None |}.

(** A record whose headword is the empty string. *)
Definition empty_word : word_json :=
  {| word := []; pos := Some (js "noun");
     senses := [only_glosses [js "nothing"]]; etymology_text := None |}.

(** A record with an empty definition. *)
Definition empty_def : word_json :=
  {| word := js "cat"; pos := Some (js "noun");
     senses := [only_glosses [[]]]; etymology_text := None |}.

(** A record without [pos]. *)
Definition no_pos : word_json :=
  {| word := js "a"; pos := None;
     senses := [only_glosses [js "the first letter"]]; etymology_text := None |}.

(* ================================================================= *)
(** * Properties *)

(* ================================================================= *)
(** ** Strings *)

Lemma str_eqb_eq (a b : jsstring) : str_eqb a b = true <-> a = b.
Proof.
  revert b; induction a as [|x a IH]; intros [|y b]; simpl;
    try (split; [discriminate | congruence]); try tauto.
  rewrite andb_true_iff, N.eqb_eq, IH.
  split; [intros [-> ->]; reflexivity | intros [= -> ->]; auto].
Qed.

Lemma str_eqb_refl (a : jsstring) : str_eqb a a = true.
Proof. apply str_eqb_eq; reflexivity. Qed.

Lemma str_eqb_neq (a b : jsstring) : str_eqb a b = false <-> a <> b.
Proof.
  rewrite <- str_eqb_eq. destruct (str_eqb a b); split; congruence.
Qed.

Lemma str_compare_eq (a b : jsstring) : str_compare a b = Eq <-> a = b.
Proof.
  revert b; induction a as [|x a IH]; intros [|y b]; simpl;
    try (split; [discriminate | congruence]); try tauto.
  destruct (x ?= y) eqn:E.
  - apply N.compare_eq_iff in E; subst. rewrite IH.
    split; [intros ->; reflexivity | intros [= ->]; reflexivity].
  - split; [discriminate|]. intros [= -> ->].
    rewrite N.compare_refl in E; discriminate.
  - split; [discriminate|]. intros [= -> ->].
    rewrite N.compare_refl in E; discriminate.
Qed.

Lemma str_compare_refl (a : jsstring) : str_compare a a = Eq.
Proof. apply str_compare_eq; reflexivity. Qed.

Lemma str_compare_antisym (a b : jsstring) :
  str_compare b a = CompOpp (str_compare a b).
Proof.
  revert b; induction a as [|x a IH]; intros [|y b]; simpl; try reflexivity.
  rewrite (N.compare_antisym x y).
  destruct (x ?= y); simpl; auto.
Qed.

Lemma str_lt_trans (a b c : jsstring) : str_lt a b -> str_lt b c -> str_lt a c.
Proof.
  unfold str_lt. revert b c; induction a as [|x a IH]; intros [|y b] [|z c];
    simpl; try discriminate; auto.
  destruct (x ?= y) eqn:Exy; try discriminate;
    destruct (y ?= z) eqn:Eyz; try discriminate; intros Hab Hbc.
  - apply N.compare_eq_iff in Exy, Eyz; subst.
    rewrite N.compare_refl. eauto.
  - apply N.compare_eq_iff in Exy; subst. rewrite Eyz; reflexivity.
  - apply N.compare_eq_iff in Eyz; subst. rewrite Exy; reflexivity.
  - rewrite N.compare_lt_iff in Exy, Eyz.
    assert (H : x < z) by lia. apply N.compare_lt_iff in H. rewrite H; reflexivity.
Qed.

Lemma str_lt_irrefl (a : jsstring) : ~ str_lt a a.
Proof. unfold str_lt; rewrite str_compare_refl; discriminate. Qed.

Lemma str_ltb_lt (a b : jsstring) : str_ltb a b = true <-> str_lt a b.
Proof.
  unfold str_ltb, str_lt. destruct (str_compare a b); split; congruence.
Qed.

Lemma str_le_cases (a b : jsstring) : str_le a b <-> str_lt a b \/ a = b.
Proof.
  unfold str_le, str_lt. rewrite <- str_compare_eq.
  destruct (str_compare a b); split; try congruence; auto.
  intros [H|H]; discriminate.
Qed.

Lemma str_le_trans (a b c : jsstring) : str_le a b -> str_le b c -> str_le a c.
Proof.
  rewrite !str_le_cases. intros [H1| ->] [H2| ->]; auto.
  left; eapply str_lt_trans; eauto.
Qed.

Lemma str_not_lt_le (a b : jsstring) : str_ltb a b = false -> str_le b a.
Proof.
  unfold str_ltb, str_le. rewrite (str_compare_antisym a b).
  destruct (str_compare a b); simpl; congruence.
Qed.

Lemma str_le_antisym (a b : jsstring) : str_le a b -> str_le b a -> a = b.
Proof.
  rewrite !str_le_cases. intros [H1|H1] [H2|H2]; auto.
  exfalso; apply (str_lt_irrefl a); eapply str_lt_trans; eauto.
Qed.

(* ================================================================= *)
(** ** [sort] *)

Lemma sort_insert_perm (x : jsstring) (l : list jsstring) :
  Permutation (x :: l) (sort_insert x l).
Proof.
  induction l as [|y l IH]; simpl; [reflexivity|].
  destruct (str_ltb y x); [|reflexivity].
  rewrite perm_swap. constructor; exact IH.
Qed.

Lemma sort_perm (l : list jsstring) : Permutation l (sort l).
Proof.
  induction l as [|x l IH]; simpl; [constructor|].
  rewrite <- sort_insert_perm. constructor; exact IH.
Qed.

Lemma sort_insert_sorted (x : jsstring) (l : list jsstring) :
  StronglySorted str_le l -> StronglySorted str_le (sort_insert x l).
Proof.
  induction 1 as [|y l Hs IH Hall]; simpl.
  - repeat constructor.
  - destruct (str_ltb y x) eqn:E.
    + constructor; [exact IH|].
      rewrite <- sort_insert_perm. constructor; [|exact Hall].
      apply str_le_cases; left; apply str_ltb_lt; exact E.
    + apply str_not_lt_le in E.
      constructor; [constructor; assumption|].
      constructor; [exact E|].
      eapply Forall_impl; [|exact Hall].
      intros z Hz; eapply str_le_trans; eauto.
Qed.

Lemma sort_sorted (l : list jsstring) : StronglySorted str_le (sort l).
Proof.
  induction l as [|x l IH]; simpl; [constructor|].
  apply sort_insert_sorted; exact IH.
Qed.

(** A sorted list without duplicates is strictly ascending. *)
Lemma sorted_nodup_strict (l : list jsstring) :
  StronglySorted str_le l -> NoDup l -> StronglySorted str_lt l.
Proof.
  induction 1 as [|x l Hs IH Hall]; intros Hnd; [constructor|].
  inversion Hnd as [|? ? Hnotin Hnd']; subst.
  constructor; [auto|].
  rewrite Forall_forall in *. intros y Hy.
  destruct (proj1 (str_le_cases x y) (Hall y Hy)) as [H| ->]; [exact H|].
  contradiction.
Qed.

Lemma strict_sorted_nodup (l : list jsstring) :
  StronglySorted str_lt l -> NoDup l.
Proof.
  induction 1 as [|x l Hs IH Hall]; constructor; auto.
  intros Hin. rewrite Forall_forall in Hall.
  exact (str_lt_irrefl x (Hall x Hin)).
Qed.

(** The sorted arrangement of a list is unique, so [sort] stands for any
    algorithm [Array.prototype.sort] may run. *)
Lemma sort_unique (l l' : list jsstring) :
  Permutation l l' -> StronglySorted str_le l' -> l' = sort l.
Proof.
  intros Hp Hs.
  assert (Hp' : Permutation l' (sort l))
    by (rewrite <- Hp; apply sort_perm).
  generalize (sort_sorted l). generalize dependent (sort l).
  clear Hp l. induction Hs as [|x l1 Hs IH Hall]; intros l2 Hp Hs2.
  - apply Permutation_nil in Hp; auto.
  - destruct Hs2 as [|y l2 Hs2 Hall2].
    + symmetry in Hp; apply Permutation_nil in Hp; discriminate.
    + assert (x = y) as <-.
      { rewrite Forall_forall in Hall, Hall2.
        apply str_le_antisym.
        - assert (Hy : In y (x :: l1))
            by (eapply Permutation_in; [symmetry; exact Hp | left; reflexivity]).
          destruct Hy as [<-|Hy]; [apply str_le_cases; auto | auto].
        - assert (Hx : In x (y :: l2))
            by (eapply Permutation_in; [exact Hp | left; reflexivity]).
          destruct Hx as [<-|Hx]; [apply str_le_cases; auto | auto]. }
      f_equal. apply IH; [eapply Permutation_cons_inv; exact Hp | exact Hs2].
Qed.

(* ================================================================= *)
(** ** The key escaping *)

Lemma str_eqb_length (a b : jsstring) :
  str_eqb a b = true -> List.length a = List.length b.
Proof. intros H; apply str_eqb_eq in H; subst; reflexivity. Qed.

Lemma replace_tr_word_key (w : jsstring) : replace_tr (word_key w) = w.
Proof.
  unfold word_key. induction w as [|c w IH].
  - reflexivity.
  - change ((c :: w) ++ js "_tr") with (c :: (w ++ js "_tr")).
    cbn [replace_tr].
    destruct (str_eqb (c :: w ++ js "_tr") (js "_tr")) eqn:E.
    + apply str_eqb_length in E. simpl in E. rewrite length_app in E.
      simpl in E. lia.
    + rewrite IH; reflexivity.
Qed.

Lemma word_key_inj (w1 w2 : jsstring) : word_key w1 = word_key w2 -> w1 = w2.
Proof.
  intros H. rewrite <- (replace_tr_word_key w1), H.
  apply replace_tr_word_key.
Qed.

Lemma test_non_lower_cons (c : code_unit) (w : jsstring) :
  test_non_lower (c :: w) = false ->
  97 <= c <= 122 /\ test_non_lower w = false.
Proof.
  unfold test_non_lower; simpl. rewrite orb_false_iff, negb_false_iff.
  unfold is_lower. rewrite andb_true_iff, !N.leb_le. tauto.
Qed.

(** The suffix starts with [_], which is below every letter of [a-z]:
    escaped keys compare as the headwords do. *)
Lemma word_key_compare (w1 w2 : jsstring) :
  test_non_lower w1 = false -> test_non_lower w2 = false ->
  str_compare (word_key w1) (word_key w2) = str_compare w1 w2.
Proof.
  unfold word_key. change (js "_tr") with [95; 116; 114]. revert w2.
  induction w1 as [|c1 w1 IH]; intros [|c2 w2] H1 H2.
  - apply str_compare_refl.
  - apply test_non_lower_cons in H2 as [Hc _]. cbn [app str_compare].
    assert (E : 95 < c2) by lia. apply N.compare_lt_iff in E.
    rewrite E; reflexivity.
  - apply test_non_lower_cons in H1 as [Hc _]. cbn [app str_compare].
    assert (E : 95 < c1) by lia. apply N.compare_gt_iff in E.
    rewrite E; reflexivity.
  - apply test_non_lower_cons in H1 as [_ H1].
    apply test_non_lower_cons in H2 as [_ H2].
    cbn [app str_compare]. rewrite (IH w2 H1 H2); reflexivity.
Qed.

(* ================================================================= *)
(** ** The object [words] *)

Lemma words_get_set_same (key : jsstring) (v : list out_obj) (ws : words_t) :
  words_get key (words_set key v ws) = Some v.
Proof.
  induction ws as [|[k v'] ws IH]; simpl.
  - rewrite str_eqb_refl; reflexivity.
  - destruct (str_eqb k key) eqn:E; simpl; rewrite E; auto.
Qed.

Lemma words_get_set_other (key key' : jsstring) (v : list out_obj) (ws : words_t) :
  key <> key' -> words_get key' (words_set key v ws) = words_get key' ws.
Proof.
  intros Hne. induction ws as [|[k v'] ws IH]; simpl.
  - apply str_eqb_neq in Hne. rewrite Hne; reflexivity.
  - destruct (str_eqb k key) eqn:E; simpl.
    + apply str_eqb_eq in E; subst k.
      apply str_eqb_neq in Hne. rewrite Hne; reflexivity.
    + destruct (str_eqb k key'); auto.
Qed.

Lemma words_set_set (key : jsstring) (v1 v2 : list out_obj) (ws : words_t) :
  words_set key v2 (words_set key v1 ws) = words_set key v2 ws.
Proof.
  induction ws as [|[k v'] ws IH]; simpl.
  - rewrite str_eqb_refl; reflexivity.
  - destruct (str_eqb k key) eqn:E; simpl; rewrite E; [reflexivity|].
    rewrite IH; reflexivity.
Qed.

Lemma words_get_In (key : jsstring) (ws : words_t) :
  In key (Object_keys ws) <-> exists v, words_get key ws = Some v.
Proof.
  induction ws as [|[k v'] ws IH]; simpl.
  - split; [tauto | intros [v H]; discriminate].
  - destruct (str_eqb k key) eqn:E.
    + apply str_eqb_eq in E; subst. split; eauto.
    + apply str_eqb_neq in E. rewrite IH. split; [|auto].
      intros [H|H]; [contradiction | exact H].
Qed.

Lemma words_get_Some_In (key : jsstring) (v : list out_obj) (ws : words_t) :
  words_get key ws = Some v -> In (key, v) ws.
Proof.
  induction ws as [|[k v'] ws IH]; simpl; [discriminate|].
  destruct (str_eqb k key) eqn:E.
  - apply str_eqb_eq in E; subst. intros [= ->]; auto.
  - auto.
Qed.

Lemma Object_keys_set (key : jsstring) (v : list out_obj) (ws : words_t) :
  Object_keys (words_set key v ws) =
  match words_get key ws with
  | Some _ => Object_keys ws
  | None => Object_keys ws ++ [key]
  end.
Proof.
  unfold Object_keys. induction ws as [|[k v'] ws IH]; simpl; [reflexivity|].
  destruct (str_eqb k key) eqn:E; simpl; [reflexivity|].
  rewrite IH. destruct (words_get key ws); reflexivity.
Qed.

Lemma In_words_set (key : jsstring) (v : list out_obj) (ws : words_t)
      (k : jsstring) (es : list out_obj) :
  In (k, es) (words_set key v ws) -> (k = key /\ es = v) \/ In (k, es) ws.
Proof.
  induction ws as [|[k' v'] ws IH]; simpl.
  - intros [[= <- <-]|[]]; auto.
  - destruct (str_eqb k' key) eqn:E; simpl.
    + apply str_eqb_eq in E; subst. intros [[= <- <-]|H]; auto.
    + intros [H|H]; auto. destruct (IH H); auto.
Qed.

Lemma Object_keys_push (key : jsstring) (o : out_obj) (ws : words_t) :
  forall k, In k (Object_keys (words_push key o ws)) <->
            In k (Object_keys ws) \/ k = key.
Proof.
  intros k. unfold words_push. rewrite Object_keys_set.
  destruct (words_get key ws) eqn:E.
  - split; [auto|]. intros [H| ->]; [exact H|].
    apply words_get_In; eauto.
  - rewrite in_app_iff; simpl. intuition.
Qed.

Lemma Object_keys_push_NoDup (key : jsstring) (o : out_obj) (ws : words_t) :
  NoDup (Object_keys ws) -> NoDup (Object_keys (words_push key o ws)).
Proof.
  intros Hnd. unfold words_push. rewrite Object_keys_set.
  destruct (words_get key ws) eqn:E; [exact Hnd|].
  apply NoDup_app; [exact Hnd | repeat constructor; simpl; tauto |].
  intros k Hk [<-|[]].
  apply words_get_In in Hk as [v Hv]. congruence.
Qed.

Lemma entries_at_push (key : jsstring) (o : out_obj) (ws : words_t) (k : jsstring) :
  entries_at k (words_push key o ws) =
  entries_at k ws ++ (if str_eqb key k then [o] else []).
Proof.
  unfold entries_at, words_push.
  destruct (str_eqb key k) eqn:E.
  - apply str_eqb_eq in E; subst k. rewrite words_get_set_same.
    destruct (words_get key ws); reflexivity.
  - apply str_eqb_neq in E. rewrite words_get_set_other by exact E.
    rewrite app_nil_r; reflexivity.
Qed.

(** Lines 54-55 as the script runs them amount to [words_push]. *)
Lemma words_set_or_push (key : jsstring) (o : out_obj) (ws : words_t) :
  let ws1 := words_set key (js_or_else (H := array_truthy) (words_get key ws) []) ws in
  exists entries,
    words_get key ws1 = Some entries /\
    words_set key (push entries o) ws1 = words_push key o ws.
Proof.
  simpl. rewrite words_get_set_same. eexists; split; [reflexivity|].
  rewrite words_set_set. unfold words_push, push, js_or_else.
  destruct (words_get key ws); reflexivity.
Qed.

(* ================================================================= *)
(** ** [writeWord] *)

Lemma js_not_empty (def : jsstring) : js_not def = true <-> def = [].
Proof. destruct def; unfold js_not, string_truthy; simpl; split; congruence. Qed.

Lemma some_js_not (defs : list jsstring) :
  some js_not defs = true <-> In [] defs.
Proof.
  unfold some. rewrite existsb_exists. split.
  - intros [d [Hin Hd]]. apply js_not_empty in Hd; subst; exact Hin.
  - intros Hin. exists []; auto.
Qed.

Lemma make_out_obj_defs (r : word_json) :
  Out.defs (make_out_obj r) = flat_map present_sense_defs (senses r).
Proof.
  unfold make_out_obj, flatMap; simpl. apply flat_map_ext.
  intros [[raw|] [gl|]]; reflexivity.
Qed.

(** The fallback element is the placeholder, whatever the record holds. *)
Lemma build_out_obj_defs (r : word_json) :
  Out.defs (build_out_obj r) =
  match flat_map present_sense_defs (senses r) with
  | [] => [js "No definition found"]
  | d :: ds => d :: ds
  end.
Proof.
  unfold build_out_obj, fallback. rewrite <- make_out_obj_defs.
  destruct (Out.defs (make_out_obj r)) eqn:E; simpl.
  - reflexivity.
  - exact E.
Qed.


Lemma build_out_obj_nonempty (r : word_json) : Out.defs (build_out_obj r) <> [].
Proof.
  rewrite build_out_obj_defs.
  destruct (flat_map present_sense_defs (senses r)); discriminate.
Qed.

Lemma build_out_obj_length (r : word_json) :
  (N.of_nat (List.length (Out.defs (build_out_obj r))) =? 0) = false.
Proof.
  generalize (build_out_obj_nonempty r).
  destruct (Out.defs (build_out_obj r)); [congruence | reflexivity].
Qed.

Lemma writeWord_skip (r : word_json) (st : state) :
  test_non_lower (word r) = true ->
  writeWord r st = Continue (set_skipped (skipped st + 1) st).
Proof. unfold writeWord; intros ->; reflexivity. Qed.

Lemma writeWord_exit (r : word_json) (st : state) :
  test_non_lower (word r) = false ->
  some js_not (Out.defs (build_out_obj r)) = true ->
  writeWord r st = Exit 1 (print (error_bad_def (word r) (build_out_obj r) r) st).
Proof. unfold writeWord; intros -> ->; reflexivity. Qed.

Lemma writeWord_store (r : word_json) (st : state) :
  test_non_lower (word r) = false ->
  some js_not (Out.defs (build_out_obj r)) = false ->
  exists st', writeWord r st = Continue st' /\ stored r st st'.
Proof.
  intros Ht Hs. unfold writeWord. rewrite Ht, Hs, build_out_obj_length.
  cbv zeta.
  destruct (words_set_or_push (word_key (word r)) (build_out_obj r) (words st))
    as [entries [Hget Hset]].
  cbn [words set_words]. rewrite Hget. cbn [words set_words]. rewrite Hset.
  eexists; split; [reflexivity|].
  unfold stored. cbn [written set_written set_words].
  destruct (_ =? 0); cbn; auto 10.
Qed.

(** [writeWord] never throws: line 55 always finds the array. *)
Lemma writeWord_cases (r : word_json) (st : state) :
  (test_non_lower (word r) = true /\
   writeWord r st = Continue (set_skipped (skipped st + 1) st)) \/
  (test_non_lower (word r) = false /\
   some js_not (Out.defs (build_out_obj r)) = true /\
   writeWord r st = Exit 1 (print (error_bad_def (word r) (build_out_obj r) r) st)) \/
  (test_non_lower (word r) = false /\
   some js_not (Out.defs (build_out_obj r)) = false /\
   exists st', writeWord r st = Continue st' /\ stored r st st').
Proof.
  destruct (test_non_lower (word r)) eqn:Ht.
  - left; split; [reflexivity | apply writeWord_skip; exact Ht].
  - right. destruct (some js_not (Out.defs (build_out_obj r))) eqn:Hs.
    + left; repeat split; apply writeWord_exit; assumption.
    + right; repeat split; apply writeWord_store; assumption.
Qed.

(* ================================================================= *)
(** ** The aggregation map *)

Lemma aggregate_entries (rs : list word_json) (ws : words_t) (key : jsstring) :
  entries_at key (aggregate rs ws) =
  entries_at key ws
  ++ map build_out_obj (filter (fun r => str_eqb (word_key (word r)) key) rs).
Proof.
  revert ws; induction rs as [|r rs IH]; intros ws; simpl.
  - rewrite app_nil_r; reflexivity.
  - rewrite IH, entries_at_push, <- app_assoc.
    destruct (str_eqb (word_key (word r)) key); reflexivity.
Qed.

Lemma aggregate_keys (rs : list word_json) (ws : words_t) (key : jsstring) :
  In key (Object_keys (aggregate rs ws)) <->
  In key (Object_keys ws) \/ exists r, In r rs /\ key = word_key (word r).
Proof.
  revert ws; induction rs as [|r rs IH]; intros ws; simpl.
  - split; [auto | intros [H|[r [[] _]]]; exact H].
  - rewrite IH, Object_keys_push. split.
    + intros [[H|H]|[r' [Hin Hk]]]; eauto.
    + intros [H|[r' [[<-|Hin] Hk]]]; eauto.
Qed.

Lemma aggregate_NoDup (rs : list word_json) (ws : words_t) :
  NoDup (Object_keys ws) -> NoDup (Object_keys (aggregate rs ws)).
Proof.
  revert ws; induction rs as [|r rs IH]; intros ws Hnd; simpl; [exact Hnd|].
  apply IH, Object_keys_push_NoDup, Hnd.
Qed.

Lemma filter_kept_word (w : jsstring) (rs : list word_json) :
  test_non_lower w = false ->
  filter (fun r => str_eqb (word_key (word r)) (word_key w)) (filter kept rs) =
  filter (fun r => str_eqb (word r) w) rs.
Proof.
  intros Hw. induction rs as [|r rs IH]; simpl; [reflexivity|].
  destruct (str_eqb (word r) w) eqn:E.
  - apply str_eqb_eq in E.
    assert (Hk : kept r = true) by (unfold kept; rewrite E, Hw; reflexivity).
    rewrite Hk. cbn [filter]. rewrite E at 1. rewrite str_eqb_refl, IH; reflexivity.
  - destruct (kept r); cbn [filter]; [|exact IH].
    destruct (str_eqb (word_key (word r)) (word_key w)) eqn:E'; [|exact IH].
    apply str_eqb_eq, word_key_inj in E'. apply str_eqb_neq in E; contradiction.
Qed.

(* ================================================================= *)
(** ** The parse phase *)

Lemma feed_app (ls1 ls2 : list line) (st : state) :
  feed (ls1 ++ ls2) st =
  match feed ls1 st with
  | Continue st' => feed ls2 st'
  | stopped => stopped
  end.
Proof.
  revert st; induction ls1 as [|l ls1 IH]; intros st; simpl.
  - reflexivity.
  - destruct (on_line l st); auto.
Qed.

(** What a completed parse phase leaves in the state. *)
Lemma feed_Continue (ls : list line) (st st' : state) :
  feed ls st = Continue st' ->
  skipped st' =
    skipped st
    + N.of_nat (List.length (filter (fun r => test_non_lower (word r)) (records ls))) /\
  written st' = written st + N.of_nat (List.length (filter kept (records ls))) /\
  writable st' = writable st + N.of_nat (List.length ls) /\
  words st' = aggregate (filter kept (records ls)) (words st) /\
  defs_json st' = defs_json st /\
  Forall (fun r => kept r = true -> clean r = true) (records ls).
Proof.
  revert st; induction ls as [|l ls IH]; intros st.
  - cbn. intros [= <-]. rewrite !N.add_0_r. auto 10.
  - cbn [feed]. destruct l as [r|]; cbn [on_line].
    + change (records (Some r :: ls)) with (r :: records ls). cbn [filter].
      destruct (writeWord_cases r (set_writable (writable st + 1) st))
        as [[Ht E]|[[Ht [Hs E]]|[Ht [Hs [st1 [E Hst]]]]]]; rewrite E; try discriminate.
      * intros H; apply IH in H. cbn in H.
        destruct H as (H1 & H2 & H3 & H4 & H5 & H6).
        assert (Hk : kept r = false) by (unfold kept; rewrite Ht; reflexivity).
        rewrite Ht, Hk. cbn [List.length].
        repeat split; try assumption; try lia.
        constructor; [rewrite Hk; discriminate | exact H6].
      * intros H; apply IH in H.
        destruct Hst as (S1 & S2 & S3 & S4 & S5 & _). cbn in S1, S2, S3, S4, S5.
        destruct H as (H1 & H2 & H3 & H4 & H5 & H6).
        assert (Hk : kept r = true) by (unfold kept; rewrite Ht; reflexivity).
        rewrite Ht, Hk. cbn [List.length aggregate fold_left].
        rewrite H1, H2, H3, H4, H5, S1, S2, S3, S4, S5.
        repeat split; try reflexivity; try lia.
        constructor; [unfold clean; rewrite Hs; reflexivity | exact H6].
    + change (records (None :: ls)) with (records ls).
      intros H; apply IH in H. cbn in H. cbn [List.length].
      destruct H as (H1 & H2 & H3 & H4 & H5 & H6).
      repeat split; try assumption; lia.
Qed.

(** The parse phase completes when no kept record has a falsy
    definition. *)
Lemma feed_clean (ls : list line) (st : state) :
  Forall (fun r => kept r = true -> clean r = true) (records ls) ->
  exists st', feed ls st = Continue st'.
Proof.
  revert st; induction ls as [|l ls IH]; intros st; cbn [feed]; [eauto|].
  destruct l as [r|]; cbn [on_line]; [|intros H; apply IH; exact H].
  change (records (Some r :: ls)) with (r :: records ls).
  intros H. inversion H as [|? ? Hr Hrest]; subst.
  destruct (writeWord_cases r (set_writable (writable st + 1) st))
    as [[Ht E]|[[Ht [Hs E]]|[Ht [Hs [st1 [E Hst]]]]]]; rewrite E; auto.
  unfold kept, clean in Hr. rewrite Ht, Hs in Hr.
  specialize (Hr eq_refl); discriminate.
Qed.

(** The parse phase stops only through [process.exit(1)], and then with
    [defs.json] as it was. *)
Lemma feed_stopped (ls : list line) (st : state) :
  match feed ls st with
  | Continue _ => True
  | Exit c st' =>
      c = 1 /\ defs_json st' = defs_json st /\
      exists r, In r (records ls) /\ kept r = true /\ clean r = false
  | Throw _ => False
  end.
Proof.
  revert st; induction ls as [|l ls IH]; intros st; cbn [feed]; [exact I|].
  destruct l as [r|]; cbn [on_line].
  - change (records (Some r :: ls)) with (r :: records ls).
    destruct (writeWord_cases r (set_writable (writable st + 1) st))
      as [[Ht E]|[[Ht [Hs E]]|[Ht [Hs [st1 [E Hst]]]]]]; rewrite E.
    + specialize (IH (set_skipped (skipped (set_writable (writable st + 1) st) + 1)
                                  (set_writable (writable st + 1) st))).
      destruct (feed ls _); [exact I | | contradiction].
      destruct IH as (Hc & Hf & r' & Hin & Hk).
      repeat split; [exact Hc | exact Hf |]. exists r'; split; [right|]; assumption.
    + repeat split. exists r. unfold kept, clean. rewrite Ht, Hs.
      repeat split; left; reflexivity.
    + specialize (IH st1). destruct Hst as (_ & _ & _ & _ & S5 & _).
      destruct (feed ls st1); [exact I | | contradiction].
      destruct IH as (Hc & Hf & r' & Hin & Hk).
      repeat split; [exact Hc | rewrite Hf, S5; reflexivity |].
      exists r'; split; [right|]; assumption.
  - change (records (None :: ls)) with (records ls).
    specialize (IH (set_writable (writable st + 1) st)).
    destruct (feed ls _); [exact I | | contradiction].
    destruct IH as (Hc & Hf & r' & Hin & Hk).
    repeat split; [exact Hc | exact Hf |]. exists r'; split; assumption.
Qed.

(* ================================================================= *)
(** ** The counters *)

Lemma filter_kept_length (rs : list word_json) :
  (List.length (filter kept rs)
   + List.length (filter (fun r => test_non_lower (word r)) rs))%nat
  = List.length rs.
Proof.
  induction rs as [|r rs IH]; [reflexivity|].
  cbn [filter]. unfold kept at 1.
  destruct (test_non_lower (word r)); cbn [negb List.length]; lia.
Qed.

Lemma records_length (ls : list line) :
  (List.length (records ls) <= List.length ls)%nat /\
  (List.length (records ls) = List.length ls <-> forallb emitted ls = true).
Proof.
  induction ls as [|[r|] ls [IH1 IH2]].
  - split; [apply le_n | split; reflexivity].
  - change (records (Some r :: ls)) with (r :: records ls).
    cbn [List.length forallb emitted andb]. split; [lia|].
    rewrite <- IH2. split; lia.
  - change (records (None :: ls)) with (records ls).
    cbn [List.length forallb emitted andb]. split; [lia|].
    split; [lia | discriminate].
Qed.

(** The counters after a completed parse phase. *)
Lemma feed_counters (ls : list line) (st : state) :
  feed ls init = Continue st ->
  written st = N.of_nat (List.length (filter kept (records ls))) /\
  skipped st =
    N.of_nat (List.length (filter (fun r => test_non_lower (word r)) (records ls))) /\
  writable st = N.of_nat (List.length ls) /\
  written st + skipped st = N.of_nat (List.length (records ls)).
Proof.
  intros H. apply feed_Continue in H as (H1 & H2 & H3 & _).
  cbn in H1, H2, H3. rewrite H1, H2, H3.
  repeat split. rewrite <- (filter_kept_length (records ls)). lia.
Qed.

(* ================================================================= *)
(** ** The [end] handler *)

Lemma write_keys_spec (keys : list jsstring) (st : state) :
  let st' := write_keys keys st in
  written st' = written st /\ skipped st' = skipped st /\
  writable st' = writable st /\ words st' = words st /\
  console st' = console st /\ defs_json st' = defs_json st /\
  stream st' =
    match stream st with
    | Some lines => Some (lines ++ map (line_value (words st)) keys)
    | None => None
    end.
Proof.
  revert st; induction keys as [|key keys IH]; intros st; simpl.
  - repeat split. destruct (stream st); [rewrite app_nil_r|]; reflexivity.
  - destruct (IH (stream_write (line_value (words st) key) st))
      as (H1 & H2 & H3 & H4 & H5 & H6 & H7).
    cbn in H1, H2, H3, H4, H5, H6, H7.
    repeat split; try assumption.
    rewrite H7. destruct (stream st); [|reflexivity].
    unfold push. rewrite <- app_assoc; reflexivity.
Qed.

(** The [end] handler hands every line to the stream and leaves the file
    as it was; the exit status depends on the counters alone. *)
Lemma on_end_spec (st : state) :
  exists st',
    on_end st =
      (if written st + skipped st =? writable st
       then Continue st'
       else Exit 1 (print error_not_all_processed st')) /\
    stream st' = Some (end_lines st) /\
    defs_json st' = defs_json st /\
    words st' = words st /\ written st' = written st /\
    skipped st' = skipped st /\ writable st' = writable st /\
    console st' =
      console st
      ++ [log_separator; log_sorting; log_writing; log_separator;
          log_summary (writable st) (written st) (skipped st)
                      (written st + skipped st)
                      (N.of_nat (List.length (Object_keys (words st))))].
Proof.
  unfold on_end.
  set (st1 := set_stream (Some [])
                (print log_writing (print log_sorting (print log_separator st)))).
  cbn [words print].
  change (set_stream (Some [])
            (print log_writing (print log_sorting (print log_separator st))))
    with st1.
  destruct (write_keys_spec (sort (Object_keys (words st))) st1)
    as (H1 & H2 & H3 & H4 & H5 & H6 & H7).
  cbn in H1, H2, H3, H4, H5, H6, H7.
  assert (Hlen : List.length (sort (Object_keys (words st))) =
                 List.length (Object_keys (words st))).
  { symmetry. apply Permutation_length, sort_perm. }
  eexists; split.
  - cbn [written skipped writable print]. rewrite H1, H2, H3.
    destruct (written st + skipped st =? writable st); reflexivity.
  - cbn [stream defs_json words written skipped writable console print].
    rewrite H1, H2, H3, H4, H5, H6, H7, Hlen, <- !app_assoc.
    repeat split.
Qed.

(* ================================================================= *)
(** ** Whole runs *)

Lemma all_clean_Forall (ls : list line) :
  all_clean ls = true <->
  Forall (fun r => kept r = true -> clean r = true) (records ls).
Proof.
  unfold all_clean. rewrite forallb_forall, Forall_forall.
  split; intros H r Hin; specialize (H r Hin);
    destruct (kept r), (clean r); simpl in *; auto.
Qed.

Lemma all_clean_feed (ls : list line) :
  all_clean ls = true <-> exists st, feed ls init = Continue st.
Proof.
  rewrite all_clean_Forall. split.
  - apply feed_clean.
  - intros [st H]. apply feed_Continue in H. tauto.
Qed.

Lemma not_clean_feed (ls : list line) :
  all_clean ls = false -> exists st, feed ls init = Exit 1 st.
Proof.
  intros Hc. generalize (feed_stopped ls init).
  destruct (feed ls init) as [st|c st|st] eqn:H.
  - assert (all_clean ls = true) by (apply all_clean_feed; eauto). congruence.
  - intros (-> & _). eauto.
  - intros [].
Qed.

(** The counters agree at the end exactly when the parser emitted a
    record for every line. *)
Lemma counters_agree (ls : list line) (st : state) :
  feed ls init = Continue st ->
  (written st + skipped st =? writable st) = forallb emitted ls.
Proof.
  intros H. destruct (feed_counters ls st H) as (_ & _ & Hw & Hsum).
  rewrite Hsum, Hw. destruct (records_length ls) as [_ Hlen].
  destruct (forallb emitted ls) eqn:He.
  - apply N.eqb_eq. f_equal. apply Hlen. reflexivity.
  - apply N.eqb_neq. intros E. apply Nat2N.inj, Hlen in E. discriminate.
Qed.

(** A run whose parse phase completes: the [end] handler decides the
    exit status, and the lines reach the file when it returns. *)
Lemma main_complete (ls : list line) (st : state) :
  feed ls init = Continue st ->
  defs_json (final (main (Some ls))) =
    (if forallb emitted ls then Some (end_lines st) else None) /\
  words (final (main (Some ls))) = words st /\
  skipped (final (main (Some ls))) = skipped st /\
  exit_code (main (Some ls)) =
    (if written st + skipped st =? writable st then 0 else 1) /\
  console (final (main (Some ls))) =
    console st
    ++ [log_separator; log_sorting; log_writing; log_separator;
        log_summary (writable st) (written st) (skipped st)
                    (written st + skipped st)
                    (N.of_nat (List.length (Object_keys (words st))))]
    ++ (if forallb emitted ls then [] else [error_not_all_processed]).
Proof.
  intros H. unfold main. rewrite H.
  destruct (on_end_spec st) as (st' & E & Hs & Hf & Hw & _ & Hsk & _ & Hc).
  rewrite E, <- (counters_agree ls st H).
  apply feed_Continue in H as (_ & _ & _ & _ & Hd & _). cbn in Hd.
  destruct (written st + skipped st =? writable st); cbn [finish exit_code final].
  - unfold flush. rewrite Hs.
    cbn [defs_json words skipped console set_defs_json].
    rewrite Hc, app_nil_r. auto.
  - cbn [defs_json words skipped console print].
    rewrite Hf, Hd, Hc, <- app_assoc. auto.
Qed.

Lemma main_never_warned (ls : list line) (st : state) :
  feed ls init = Continue st -> never_warned st ->
  never_warned (final (main (Some ls))).
Proof.
  intros H Hn r Hin.
  destruct (main_complete ls st H) as (_ & _ & _ & _ & Hc).
  rewrite Hc in Hin. apply in_app_iff in Hin as [Hin|Hin]; [exact (Hn r Hin)|].
  destruct (forallb emitted ls); cbn in Hin;
    repeat (destruct Hin as [Hin|Hin]; [discriminate|]); destruct Hin.
Qed.

(** A run halted in the parse phase: [defs.json] is never opened. *)
Lemma main_halted (ls : list line) (c : N) (st : state) :
  feed ls init = Exit c st ->
  exit_code (main (Some ls)) = 1 /\
  defs_json (final (main (Some ls))) = None /\
  final (main (Some ls)) = st.
Proof.
  intros H. unfold main. rewrite H. cbn.
  generalize (feed_stopped ls init). rewrite H.
  intros (-> & Hf & _). auto.
Qed.

(** The lines in the file after a completed parse phase: all of them
    when the counters agree, none when the handler exits. *)
Lemma output_complete (ls : list line) (st : state) :
  feed ls init = Continue st ->
  output (main (Some ls)) = if forallb emitted ls then end_lines st else [].
Proof.
  intros H. unfold output.
  destruct (main_complete ls st H) as (-> & _).
  destruct (forallb emitted ls); reflexivity.
Qed.

(** The keys of the map after a completed parse phase. *)
Lemma feed_keys (ls : list line) (st : state) :
  feed ls init = Continue st ->
  NoDup (Object_keys (words st)) /\
  forall key, In key (Object_keys (words st)) <->
    exists r, In r (records ls) /\ kept r = true /\ key = word_key (word r).
Proof.
  intros H. apply feed_Continue in H as (_ & _ & _ & Hw & _).
  rewrite Hw. split.
  - apply aggregate_NoDup; constructor.
  - intros key. rewrite aggregate_keys. simpl. split.
    + intros [[]|[r [Hin Hk]]]. apply filter_In in Hin as [Hin Hkept]. eauto.
    + intros [r (Hin & Hkept & Hk)]. right; exists r; split; [|exact Hk].
      apply filter_In; auto.
Qed.

Lemma feed_keys_escaped (ls : list line) (st : state) :
  feed ls init = Continue st -> keys_escaped (Object_keys (words st)).
Proof.
  intros H key Hin. apply (feed_keys ls st H) in Hin as [r (_ & Hk & ->)].
  exists (word r); split; [reflexivity|].
  unfold kept in Hk. destruct (test_non_lower (word r)); [discriminate | reflexivity].
Qed.

(** Stripping the suffix from escaped keys keeps a strictly ascending
    list strictly ascending. *)
Lemma strip_sorted (keys : list jsstring) :
  keys_escaped keys -> StronglySorted str_lt keys ->
  StronglySorted str_lt (map replace_tr keys).
Proof.
  intros Hesc Hs. induction Hs as [|x l Hs IH Hall]; simpl; [constructor|].
  constructor.
  - apply IH. intros key Hin; apply Hesc; right; exact Hin.
  - rewrite Forall_forall in *. intros y' Hy'.
    apply in_map_iff in Hy' as [y [<- Hy]].
    destruct (Hesc x (or_introl eq_refl)) as [w1 [-> H1]].
    destruct (Hesc y (or_intror Hy)) as [w2 [-> H2]].
    rewrite !replace_tr_word_key. unfold str_lt.
    rewrite <- (word_key_compare w1 w2 H1 H2). apply Hall; exact Hy.
Qed.

(** The array under an escaped key after a completed parse phase: one
    entry per record with that headword, in input order. *)
Lemma feed_entries (ls : list line) (st : state) (w : jsstring) :
  feed ls init = Continue st -> test_non_lower w = false ->
  entries_at (word_key w) (words st) = map build_out_obj (records_of w ls).
Proof.
  intros H Hw. apply feed_Continue in H as (_ & _ & _ & Hws & _).
  rewrite Hws, aggregate_entries. unfold records_of.
  rewrite filter_kept_word by exact Hw. reflexivity.
Qed.

(* ================================================================= *)
(** ** The invariant of the map *)

Lemma defs_nonempty_push (key : jsstring) (r : word_json) (ws : words_t) :
  defs_nonempty ws -> defs_nonempty (words_push key (build_out_obj r) ws).
Proof.
  intros Hinv k es o Hin Ho. unfold words_push in Hin.
  apply In_words_set in Hin as [[-> ->]|Hin]; [|eapply Hinv; eauto].
  destruct (words_get key ws) as [entries|] eqn:E.
  - apply in_app_iff in Ho as [Ho|[<-|[]]].
    + eapply Hinv; [apply words_get_Some_In; exact E | exact Ho].
    + apply build_out_obj_nonempty.
  - destruct Ho as [<-|[]]. apply build_out_obj_nonempty.
Qed.

Lemma writeWord_inv (r : word_json) (st : state) :
  defs_nonempty (words st) /\ never_warned st ->
  defs_nonempty (words (state_of (writeWord r st))) /\
  never_warned (state_of (writeWord r st)).
Proof.
  intros [Hd Hn].
  destruct (writeWord_cases r st)
    as [[Ht E]|[[Ht [Hs E]]|[Ht [Hs [st1 [E Hst]]]]]]; rewrite E; cbn.
  - split; assumption.
  - split; [assumption|]. intros r' Hin.
    apply in_app_iff in Hin as [Hin|[Hin|[]]]; [exact (Hn r' Hin) | discriminate].
  - destruct Hst as (S1 & _ & _ & _ & _ & S6). split.
    + rewrite S1. apply defs_nonempty_push; exact Hd.
    + intros r' Hin. destruct S6 as [S6|S6]; rewrite S6 in Hin.
      * exact (Hn r' Hin).
      * apply in_app_iff in Hin as [Hin|[Hin|[]]];
          [exact (Hn r' Hin) | discriminate].
Qed.

Lemma feed_inv (ls : list line) (st : state) :
  defs_nonempty (words st) /\ never_warned st ->
  defs_nonempty (words (state_of (feed ls st))) /\
  never_warned (state_of (feed ls st)).
Proof.
  revert st; induction ls as [|l ls IH]; intros st Hinv; cbn [feed]; [exact Hinv|].
  assert (H1 : defs_nonempty (words (state_of (on_line l st))) /\
               never_warned (state_of (on_line l st))).
  { destruct l as [r|]; cbn [on_line]; [apply writeWord_inv|]; exact Hinv. }
  destruct (on_line l st); cbn in H1 |- *; auto.
Qed.

Lemma output_keys_complete (ls : list line) (st : state) :
  feed ls init = Continue st -> forallb emitted ls = true ->
  output_keys (main (Some ls)) = map replace_tr (sort (Object_keys (words st))).
Proof.
  intros H He. unfold output_keys. rewrite (output_complete ls st H), He.
  unfold end_lines. rewrite map_map. reflexivity.
Qed.

Lemma In_output_keys (ls : list line) (st : state) (w : jsstring) :
  feed ls init = Continue st -> forallb emitted ls = true ->
  In w (output_keys (main (Some ls))) <->
  exists r, In r (records ls) /\ kept r = true /\ word r = w.
Proof.
  intros H He. rewrite (output_keys_complete ls st H He), in_map_iff.
  destruct (feed_keys ls st H) as [_ Hkeys]. split.
  - intros [key [<- Hin]].
    apply (Permutation_in _ (Permutation_sym (sort_perm _))) in Hin.
    apply Hkeys in Hin as [r (Hin & Hk & ->)].
    exists r. rewrite replace_tr_word_key. auto.
  - intros [r (Hin & Hk & <-)]. exists (word_key (word r)).
    split; [apply replace_tr_word_key|].
    apply (Permutation_in _ (sort_perm _)). apply Hkeys. eauto.
Qed.

Lemma claimed_match_spec (w : jsstring) :
  claimed_match w = true <-> w <> [] /\ test_non_lower w = false.
Proof.
  destruct w as [|c w]; [simpl; split; [discriminate | intros [[] _]; reflexivity]|].
  unfold claimed_match, test_non_lower.
  split.
  - intros H. split; [discriminate|].
    destruct (existsb _ _) eqn:E; [|reflexivity].
    apply existsb_exists in E as [x [Hin Hx]].
    rewrite forallb_forall in H. rewrite (H x Hin) in Hx; discriminate.
  - intros [_ H]. apply forallb_forall. intros x Hin.
    destruct (is_lower x) eqn:E; [reflexivity|].
    assert (existsb (fun c => negb (is_lower c)) (c :: w) = true).
    { apply existsb_exists. exists x. rewrite E; auto. }
    congruence.
Qed.

(* ================================================================= *)
(** ** The scenarios of the specification *)

(** Scenario A: the line written for [cat]. *)
Example scenario_A :
  file_text (main (Some [Some cat])) =
  js "[" ++ quote (js "cat") ++ js ",[{" ++ quote (js "pos") ++ js ":"
     ++ quote (js "noun") ++ js "," ++ quote (js "defs") ++ js ":["
     ++ quote (js "a small domesticated feline") ++ js "]}]]" ++ [10].
Proof. reflexivity. Qed.

(** Scenario B: a capitalised word is skipped and counted. *)
Example scenario_B :
  output (main (Some [Some Dog])) = [] /\
  skipped (final (main (Some [Some Dog]))) = 1 /\
  exit_code (main (Some [Some Dog])) = 0.
Proof. repeat split. Qed.

(** Scenario C: two records of one word give one key with two entries,
    in input order. *)
Example scenario_C :
  output (main (Some [Some run_noun; Some run_verb])) =
  [(js "run",
    Some [{| Out.pos := Some (js "noun"); Out.defs := [js "an act of running"] |};
          {| Out.pos := Some (js "verb"); Out.defs := [js "to move quickly"] |}])].
Proof. reflexivity. Qed.

(** Scenario D: no glosses and no etymology. *)
Example scenario_D :
  Out.defs (build_out_obj no_glosses) = [js "No definition found"].
Proof. reflexivity. Qed.

(** Scenario E as the script runs it: a line for which the parser
    emits nothing makes the counters disagree; the line of [cat] has been
    handed to the stream, the exit status is 1, and nothing is in the
    file. *)
Example scenario_E :
  exit_code (main (Some [Some cat; None])) = 1 /\
  stream (final (main (Some [Some cat; None]))) =
    Some [(js "cat",
           Some [{| Out.pos := Some (js "noun");
                    Out.defs := [js "a small domesticated feline"] |}])] /\
  output (main (Some [Some cat; None])) = [].
Proof. repeat split. Qed.

(** The input file is missing: exit status 1 and no output. *)
Example input_missing :
  exit_code (main None) = 1 /\ defs_json (final (main None)) = None.
Proof. split; reflexivity. Qed.

(** A record without [pos]: the line has no member [pos]. *)
Example no_pos_line :
  file_text (main (Some [Some no_pos])) =
  js "[" ++ quote (js "a") ++ js ",[{" ++ quote (js "defs") ++ js ":["
     ++ quote (js "the first letter") ++ js "]}]]" ++ [10].
Proof. reflexivity. Qed.

(* ================================================================= *)
(** * The claims *)

(* ----------------------------------------------------------------- *)
(** ** The fallback definition *)

(** C1.  The claim: when the flattened [defs] of a kept record is empty,
    the resulting [defs] holds the record's [etymology_text] when that is
    present, and ["No definition found"] otherwise.  Line 39 reads
    [etymology_text] from [out_obj], which has no such member, instead of
    [word_json]: the record [etymology_only] is kept, has no definitions
    and has an etymology, and its [defs] is the placeholder, not the
    etymology the claim asks for. *)
Theorem C1_etymology_text_not_used :
  test_non_lower (word etymology_only) = false /\
  Out.defs (make_out_obj etymology_only) = [] /\
  etymology_text etymology_only = Some (js "From Latin cattus") /\
  Out.defs (build_out_obj etymology_only) = [js "No definition found"] /\
  Out.defs (build_out_obj etymology_only) <> [claimed_fallback etymology_only] /\
  output (main (Some [Some etymology_only])) =
    [(js "cat", Some [{| Out.pos := Some (js "noun");
                         Out.defs := [js "No definition found"] |}])].
Proof. repeat split; try reflexivity. discriminate. Qed.

(** The same on every record: with an empty flattened [defs] the
    fallback is the placeholder, whatever [etymology_text] holds. *)
Lemma fallback_is_placeholder (r : word_json) :
  Out.defs (make_out_obj r) = [] ->
  Out.defs (build_out_obj r) = [js "No definition found"].
Proof.
  intros H. rewrite build_out_obj_defs. rewrite make_out_obj_defs in H.
  rewrite H. reflexivity.
Qed.

(* ----------------------------------------------------------------- *)
(** ** The definitions of a record *)

(** C2, as stated, fails: the claim has a sense whose [raw_glosses] is
    present but empty contribute its [glosses].  An empty array is
    truthy, so [||] stops at [raw_glosses] and the sense contributes
    nothing. *)
Lemma C2_empty_raw_glosses_counterexample :
  test_non_lower (word empty_raw) = false /\
  flat_map claimed_sense_defs (senses empty_raw) = [js "a muscle"] /\
  Out.defs (make_out_obj empty_raw) = [] /\
  Out.defs (make_out_obj empty_raw) <> flat_map claimed_sense_defs (senses empty_raw).
Proof. repeat split; try reflexivity. discriminate. Qed.

(** C2, amended.  For every record, [defs] is built by concatenating, per
    sense in order, the sense's [raw_glosses] when present (empty or
    not), else the sense's [glosses] when present, else nothing; a sense
    whose [raw_glosses] is present but empty contributes nothing,
    whatever its [glosses]. *)
Theorem C2_defs_by_presence (r : word_json) :
  Out.defs (make_out_obj r) = flat_map present_sense_defs (senses r) /\
  (forall gl, sense_defs {| raw_glosses := Some []; glosses := gl |} = []) /\
  (forall raw gl, sense_defs {| raw_glosses := Some raw; glosses := gl |} = raw) /\
  (forall gl, sense_defs {| raw_glosses := None; glosses := Some gl |} = gl) /\
  sense_defs {| raw_glosses := None; glosses := None |} = [].
Proof.
  split; [apply make_out_obj_defs|]. repeat split; reflexivity.
Qed.

(* ----------------------------------------------------------------- *)
(** ** The filter *)

(** C3, as stated, fails.  The empty headword does not match
    [^[a-z]+$], yet it has no character outside [a-z]: it is not skipped
    and is written as a key.  And a headword that matches is not written
    when the run is halted by a falsy definition, nor when the [end]
    handler exits on the counters. *)
Lemma C3_empty_word_counterexample :
  (claimed_match (word empty_word) = false /\
   In (word empty_word) (output_keys (main (Some [Some empty_word]))) /\
   skipped (final (main (Some [Some empty_word]))) = 0) /\
  (claimed_match (word empty_def) = true /\
   ~ In (word empty_def) (output_keys (main (Some [Some empty_def])))) /\
  (claimed_match (word cat) = true /\
   ~ In (word cat) (output_keys (main (Some [Some cat; None])))).
Proof.
  split; [repeat split; try reflexivity; left; reflexivity|].
  split; (split; [reflexivity | intros []]).
Qed.

(** C3, amended.  For every run that is not halted by a falsy definition
    and in which the parser emitted a record for every line (so that the
    counters agree at the end), the set of keys written to the output
    equals the set of input words that have no character outside [a-z]
    (the pattern [^[a-z]*$], the empty string included); every record
    whose word has such a character is skipped, counted in the skipped
    counter, and never appears as an output key. *)
Theorem C3_output_keys_are_lowercase_words (ls : list line) :
  all_clean ls = true ->
  forallb emitted ls = true ->
  (forall w, In w (output_keys (main (Some ls))) <->
             (exists r, In r (records ls) /\ word r = w) /\
             test_non_lower w = false) /\
  skipped (final (main (Some ls))) =
    N.of_nat (List.length (filter (fun r => test_non_lower (word r)) (records ls))) /\
  (forall r, In r (records ls) -> test_non_lower (word r) = true ->
     ~ In (word r) (output_keys (main (Some ls))) /\
     forall st, writeWord r st = Continue (set_skipped (skipped st + 1) st)).
Proof.
  intros Hc He. apply all_clean_feed in Hc as [st H].
  assert (Hkeys : forall w, In w (output_keys (main (Some ls))) <->
             (exists r, In r (records ls) /\ word r = w) /\
             test_non_lower w = false).
  { intros w. rewrite (In_output_keys ls st w H He). unfold kept. split.
    - intros [r (Hin & Hk & <-)]. split; [eauto|].
      destruct (test_non_lower (word r)); [discriminate | reflexivity].
    - intros [[r [Hin <-]] Ht]. exists r. rewrite Ht. auto. }
  split; [exact Hkeys|]. split.
  - destruct (main_complete ls st H) as (_ & _ & -> & _).
    apply feed_Continue in H as (-> & _). reflexivity.
  - intros r Hin Ht. split; [|intros st0; apply writeWord_skip; exact Ht].
    intros Hout. apply Hkeys in Hout as [_ Hout]. congruence.
Qed.

Lemma C3_output_keys_witness :
  all_clean [Some cat; Some Dog; Some empty_word] = true /\
  forallb emitted [Some cat; Some Dog; Some empty_word] = true /\
  (forall w, In w (output_keys (main (Some [Some cat; Some Dog; Some empty_word]))) <->
             (exists r, In r (records [Some cat; Some Dog; Some empty_word])
                        /\ word r = w) /\
             test_non_lower w = false).
Proof.
  split; [reflexivity|]. split; [reflexivity|].
  apply (C3_output_keys_are_lowercase_words [Some cat; Some Dog; Some empty_word]);
    reflexivity.
Defined.

(* ----------------------------------------------------------------- *)
(** ** Entries have definitions *)

(** C4.  In every run, every entry stored in the aggregation map, and so
    every entry written to the output, has a non-empty [defs]; the
    warning of lines 46-50 about a zero-length [defs] is never
    printed. *)
Theorem C4_defs_never_empty (input : option (list line)) :
  defs_nonempty (words (final (main input))) /\
  (forall key entries o,
     In (key, Some entries) (output (main input)) -> In o entries ->
     Out.defs o <> []) /\
  never_warned (final (main input)) /\
  (forall r, (N.of_nat (List.length (Out.defs (build_out_obj r))) =? 0) = false).
Proof.
  assert (Hinit : defs_nonempty (words init) /\ never_warned init).
  { split; [intros k es o [] | intros r []]. }
  split; [|split; [|split; [|apply build_out_obj_length]]];
    destruct input as [ls|];
    try (cbn; solve [ intros k es o [] | intros k es o [] _; auto
                    | intros r [H|[]]; discriminate ]).
  - generalize (feed_inv ls init Hinit).
    destruct (feed ls init) as [st|c st|st] eqn:H; cbn [state_of]; intros [Hd _].
    + destruct (main_complete ls st H) as (_ & -> & _). exact Hd.
    + destruct (main_halted ls c st H) as (_ & _ & ->). exact Hd.
    + generalize (feed_stopped ls init). rewrite H. intros [].
  - generalize (feed_inv ls init Hinit).
    destruct (feed ls init) as [st|c st|st] eqn:H; cbn [state_of]; intros [Hd _].
    + rewrite (output_complete ls st H).
      destruct (forallb emitted ls); [|intros key entries o []].
      unfold end_lines, line_value. intros key entries o Hin Ho.
      apply in_map_iff in Hin as [k [[= _ Hget] _]].
      apply words_get_Some_In in Hget. exact (Hd k entries o Hget Ho).
    + unfold output. destruct (main_halted ls c st H) as (_ & -> & _).
      intros key entries o [].
    + generalize (feed_stopped ls init). rewrite H. intros [].
  - generalize (feed_inv ls init Hinit).
    destruct (feed ls init) as [st|c st|st] eqn:H; cbn [state_of]; intros [_ Hn].
    + exact (main_never_warned ls st H Hn).
    + destruct (main_halted ls c st H) as (_ & _ & ->). exact Hn.
    + generalize (feed_stopped ls init). rewrite H. intros [].
Qed.

(* ----------------------------------------------------------------- *)
(** ** The order of the output *)

(** C5, as stated for every run, fails: a run halted by a falsy
    definition has keys in the aggregation map and writes none of them,
    and so does a run whose [end] handler exits on the counters. *)
Lemma C5_unwritten_keys_counterexample :
  (Object_keys (words (final (main (Some [Some cat; Some empty_def])))) =
     [word_key (js "cat")] /\
   output (main (Some [Some cat; Some empty_def])) = []) /\
  (Object_keys (words (final (main (Some [Some cat; None])))) =
     [word_key (js "cat")] /\
   output (main (Some [Some cat; None])) = []).
Proof. repeat split. Qed.

(** C5, amended.  For every run that is not halted by a falsy definition
    and in which the parser emitted a record for every line (so that the
    counters agree at the end), the output lines are emitted in strictly
    ascending code-unit order of their word keys, without duplicate
    keys, and every key of the aggregation map is written exactly once:
    the keys of the map are distinct, and the written keys are a
    rearrangement of them with the suffix removed. *)
Theorem C5_output_sorted_once (ls : list line) :
  all_clean ls = true ->
  forallb emitted ls = true ->
  StronglySorted str_lt (output_keys (main (Some ls))) /\
  NoDup (output_keys (main (Some ls))) /\
  NoDup (Object_keys (words (final (main (Some ls))))) /\
  Permutation (map replace_tr (Object_keys (words (final (main (Some ls))))))
              (output_keys (main (Some ls))) /\
  List.length (output (main (Some ls))) =
    List.length (Object_keys (words (final (main (Some ls))))).
Proof.
  intros Hc He. apply all_clean_feed in Hc as [st H].
  destruct (main_complete ls st H) as (_ & Hw & _). rewrite Hw.
  destruct (feed_keys ls st H) as [Hnd _].
  pose proof (feed_keys_escaped ls st H) as Hesc.
  pose proof (sort_perm (Object_keys (words st))) as Hperm.
  assert (Hs : StronglySorted str_lt (output_keys (main (Some ls)))).
  { rewrite (output_keys_complete ls st H He). apply strip_sorted.
    - intros key Hin. apply Hesc.
      apply (Permutation_in _ (Permutation_sym Hperm)); exact Hin.
    - apply sorted_nodup_strict; [apply sort_sorted|].
      apply (Permutation_NoDup Hperm); exact Hnd. }
  repeat split.
  - exact Hs.
  - apply strict_sorted_nodup; exact Hs.
  - exact Hnd.
  - rewrite (output_keys_complete ls st H He). apply Permutation_map; exact Hperm.
  - rewrite (output_complete ls st H), He. unfold end_lines.
    rewrite length_map. symmetry. apply Permutation_length; exact Hperm.
Qed.

Lemma C5_output_sorted_once_witness :
  all_clean [Some run_verb; Some cat; Some Dog; Some no_pos; Some run_noun] = true /\
  forallb emitted [Some run_verb; Some cat; Some Dog; Some no_pos; Some run_noun]
    = true /\
  StronglySorted str_lt
    (output_keys (main (Some [Some run_verb; Some cat; Some Dog; Some no_pos;
                              Some run_noun]))).
Proof.
  split; [reflexivity|]. split; [reflexivity|].
  apply (C5_output_sorted_once
           [Some run_verb; Some cat; Some Dog; Some no_pos; Some run_noun]);
    reflexivity.
Defined.

(* ----------------------------------------------------------------- *)
(** ** The key escaping *)

(** C6.  For words over [a-z], the escaping is a perfect round trip and
    keeps the order: removing the suffix [_tr] from the escaped key gives
    the word back, and for [w1 < w2] the escaped keys satisfy
    [w1 + "_tr" < w2 + "_tr"] in the comparison the Writer's sort uses, so
    that the sort puts the key of [w1] first. *)
Theorem C6_escape_roundtrip_and_order (w1 w2 : jsstring) :
  test_non_lower w1 = false -> test_non_lower w2 = false -> str_lt w1 w2 ->
  replace_tr (word_key w1) = w1 /\
  replace_tr (word_key w2) = w2 /\
  str_lt (word_key w1) (word_key w2) /\
  sort [word_key w2; word_key w1] = [word_key w1; word_key w2] /\
  sort [word_key w1; word_key w2] = [word_key w1; word_key w2].
Proof.
  intros H1 H2 Hlt.
  assert (Hk : str_lt (word_key w1) (word_key w2)).
  { unfold str_lt. rewrite word_key_compare; assumption. }
  repeat split; try apply replace_tr_word_key; try exact Hk.
  - cbn [sort sort_insert]. apply str_ltb_lt in Hk. rewrite Hk. reflexivity.
  - cbn [sort sort_insert].
    assert (E : str_ltb (word_key w2) (word_key w1) = false).
    { unfold str_ltb. rewrite (str_compare_antisym (word_key w1) (word_key w2)).
      rewrite Hk. reflexivity. }
    rewrite E. reflexivity.
Qed.

Lemma C6_escape_witness :
  test_non_lower (js "a") = false /\ test_non_lower (js "ab") = false /\
  str_lt (js "a") (js "ab") /\
  replace_tr (word_key (js "a")) = js "a" /\
  replace_tr (word_key (js "ab")) = js "ab" /\
  str_lt (word_key (js "a")) (word_key (js "ab")) /\
  sort [word_key (js "ab"); word_key (js "a")] =
    [word_key (js "a"); word_key (js "ab")] /\
  sort [word_key (js "a"); word_key (js "ab")] =
    [word_key (js "a"); word_key (js "ab")].
Proof.
  split; [reflexivity|]. split; [reflexivity|]. split; [reflexivity|].
  apply (C6_escape_roundtrip_and_order (js "a") (js "ab")); reflexivity.
Defined.

(* ----------------------------------------------------------------- *)
(** ** The fatal validation *)

(** C7.  For a kept record reached by the run, the run halts at that
    record with exit status 1, without having written any output, if and
    only if some element of the record's final [defs] is falsy (the empty
    string); otherwise the record is processed without error. *)
Theorem C7_halt_iff_falsy_def (before after : list line) (r : word_json) :
  all_clean before = true ->
  test_non_lower (word r) = false ->
  (In [] (Out.defs (build_out_obj r)) <->
   exists st', feed (before ++ [Some r]) init = Exit 1 st') /\
  (In [] (Out.defs (build_out_obj r)) ->
   exit_code (main (Some (before ++ Some r :: after))) = 1 /\
   defs_json (final (main (Some (before ++ Some r :: after)))) = None) /\
  (~ In [] (Out.defs (build_out_obj r)) ->
   exists st', feed (before ++ [Some r]) init = Continue st').
Proof.
  intros Hb Ht. apply all_clean_feed in Hb as [st Hb].
  assert (Hfeed : forall rest, feed (before ++ Some r :: rest) init =
                    match writeWord r (set_writable (writable st + 1) st) with
                    | Continue st' => feed rest st'
                    | stopped => stopped
                    end).
  { intros rest. rewrite feed_app, Hb. reflexivity. }
  rewrite <- some_js_not.
  destruct (some js_not (Out.defs (build_out_obj r))) eqn:Hs.
  - pose proof (writeWord_exit r (set_writable (writable st + 1) st) Ht Hs) as E.
    split; [|split].
    + split; [intros _ | reflexivity]. rewrite Hfeed, E. eauto.
    + intros _. specialize (Hfeed after). rewrite E in Hfeed.
      destruct (main_halted _ _ _ Hfeed) as (H1 & H2 & _). auto.
    + intros Hn; contradiction Hn; reflexivity.
  - destruct (writeWord_store r (set_writable (writable st + 1) st) Ht Hs)
      as [st1 [E _]].
    split; [|split].
    + split; [discriminate|]. intros [st' H].
      rewrite Hfeed, E in H. discriminate.
    + discriminate.
    + intros _. rewrite Hfeed, E. cbn [feed]. eauto.
Qed.

Lemma C7_halt_witness :
  all_clean [Some cat] = true /\
  test_non_lower (word empty_def) = false /\
  (In [] (Out.defs (build_out_obj empty_def)) <->
   exists st', feed ([Some cat] ++ [Some empty_def]) init = Exit 1 st') /\
  (In [] (Out.defs (build_out_obj empty_def)) ->
   exit_code (main (Some ([Some cat] ++ Some empty_def :: [Some run_noun]))) = 1 /\
   defs_json (final (main (Some ([Some cat] ++ Some empty_def :: [Some run_noun]))))
     = None) /\
  (~ In [] (Out.defs (build_out_obj empty_def)) ->
   exists st', feed ([Some cat] ++ [Some empty_def]) init = Continue st').
Proof.
  split; [reflexivity|]. split; [reflexivity|].
  apply (C7_halt_iff_falsy_def [Some cat] [Some run_noun] empty_def);
    reflexivity.
Defined.

(* ----------------------------------------------------------------- *)
(** ** The accounting check *)

(** C8.  The claim: when [written + skipped] differs from [writable]
    the process exits with a non-zero status after the output file has
    been fully written, and the output is not rolled back.  The handler
    does compare the counters after the loop of [stream.write], but line
    99 calls [process.exit(1)] while the stream still holds every line:
    on the input of a record for [cat] followed by a line that gives no
    record, the exit status is 1, the line for [cat] has been handed to
    the stream, and nothing has been written to [defs.json]. *)
Theorem C8_exit_on_mismatch_drops_the_output :
  written (final (main (Some [Some cat; None])))
  + skipped (final (main (Some [Some cat; None])))
  <> writable (final (main (Some [Some cat; None]))) /\
  exit_code (main (Some [Some cat; None])) = 1 /\
  stream (final (main (Some [Some cat; None]))) =
    Some [(js "cat", Some [build_out_obj cat])] /\
  defs_json (final (main (Some [Some cat; None]))) = None /\
  output (main (Some [Some cat; None])) = [].
Proof. repeat split. discriminate. Qed.

(** The same on every input: whenever the counters disagree at the end,
    the exit status is 1 and nothing is written; when they agree, the
    status is 0 and every line is written. *)
Lemma count_check_and_output (ls : list line) (st : state) :
  feed ls init = Continue st ->
  exit_code (main (Some ls)) =
    (if written st + skipped st =? writable st then 0 else 1) /\
  output (main (Some ls)) =
    (if written st + skipped st =? writable st then end_lines st else []).
Proof.
  intros H. rewrite (counters_agree ls st H).
  destruct (main_complete ls st H) as (_ & _ & _ & Hx & _).
  rewrite Hx, (counters_agree ls st H), (output_complete ls st H). auto.
Qed.

(* ----------------------------------------------------------------- *)
(** ** The entries of a word *)

(** C9.  In a run that is not halted, for every word over [a-z] that
    has input records, the entry list of that word in the aggregation
    map holds one entry per record with that word, in the order of the
    records in the input; and when the parser emitted a record for every
    line (so that the counters agree and the file is written), the
    output has a line for that word, and the entry list of every line
    for that word is that list. *)
Theorem C9_entries_in_input_order (ls : list line) (w : jsstring) :
  all_clean ls = true ->
  test_non_lower w = false ->
  records_of w ls <> [] ->
  words_get (word_key w) (words (final (main (Some ls)))) =
    Some (map build_out_obj (records_of w ls)) /\
  (forallb emitted ls = true ->
   forall entries,
     In (w, entries) (output (main (Some ls))) <->
     entries = Some (map build_out_obj (records_of w ls))).
Proof.
  intros Hc Hw Hne. apply all_clean_feed in Hc as [st H].
  destruct (feed_keys ls st H) as [_ Hkeys].
  pose proof (sort_perm (Object_keys (words st))) as Hperm.
  assert (Hin : In (word_key w) (Object_keys (words st))).
  { apply Hkeys. destruct (records_of w ls) as [|r rs] eqn:E; [congruence|].
    assert (Hr : In r (records_of w ls)) by (rewrite E; left; reflexivity).
    apply filter_In in Hr as [Hr Hrw]. apply str_eqb_eq in Hrw.
    exists r. unfold kept. rewrite Hrw, Hw. auto. }
  assert (Hget : words_get (word_key w) (words st) =
                 Some (map build_out_obj (records_of w ls))).
  { pose proof (feed_entries ls st w H Hw) as He. unfold entries_at in He.
    apply words_get_In in Hin as [v Hv]. rewrite Hv in He |- *. congruence. }
  split.
  { destruct (main_complete ls st H) as (_ & -> & _). exact Hget. }
  intros He entries.
  rewrite (output_complete ls st H), He. unfold end_lines, line_value.
  rewrite in_map_iff. split.
  - intros [key [[= Hk Hes] Hkin]].
    apply (Permutation_in _ (Permutation_sym Hperm)) in Hkin.
    apply Hkeys in Hkin as [r (_ & _ & ->)].
    rewrite replace_tr_word_key in Hk. rewrite Hk in Hes. congruence.
  - intros ->. exists (word_key w). rewrite replace_tr_word_key, Hget.
    split; [reflexivity|]. apply (Permutation_in _ Hperm); exact Hin.
Qed.

Lemma C9_entries_witness :
  all_clean [Some run_verb; Some cat; Some run_noun] = true /\
  test_non_lower (js "run") = false /\
  records_of (js "run") [Some run_verb; Some cat; Some run_noun] <> [] /\
  forallb emitted [Some run_verb; Some cat; Some run_noun] = true /\
  words_get (word_key (js "run"))
            (words (final (main (Some [Some run_verb; Some cat; Some run_noun])))) =
    Some [build_out_obj run_verb; build_out_obj run_noun] /\
  In (js "run", Some [build_out_obj run_verb; build_out_obj run_noun])
     (output (main (Some [Some run_verb; Some cat; Some run_noun]))).
Proof.
  split; [reflexivity|]. split; [reflexivity|]. split; [discriminate|].
  split; [reflexivity|].
  destruct (C9_entries_in_input_order
              [Some run_verb; Some cat; Some run_noun] (js "run")
              eq_refl eq_refl ltac:(discriminate)) as [Hmap Hout].
  split; [exact Hmap|]. apply (Hout eq_refl). reflexivity.
Defined.

(* ----------------------------------------------------------------- *)
(** ** The part of speech *)



(* ================================================================= *)
(** * Further properties of the script *)

(* ----------------------------------------------------------------- *)
(** ** The key escaping on arbitrary strings *)

Lemma replace_tr_without_suffix (key : jsstring) :
  (forall s, key <> word_key s) -> replace_tr key = key.
Proof.
  induction key as [|c rest IH]; intros Hno; [reflexivity|].
  cbn [replace_tr].
  destruct (str_eqb (c :: rest) (js "_tr")) eqn:E.
  - apply str_eqb_eq in E. exfalso. apply (Hno []). exact E.
  - f_equal. apply IH. intros s Hs. apply (Hno (c :: s)).
    rewrite Hs. reflexivity.
Qed.

(** X1.  Lines 53 and 86 on every string, not only on words over
    [a-z]: removing the suffix from an escaped key gives the word back,
    two different words never get the same key, and a key that does not
    end in [_tr] is left as it is. *)
Theorem escape_is_injective_and_reversible (w1 w2 key : jsstring) :
  replace_tr (word_key w1) = w1 /\
  (word_key w1 = word_key w2 -> w1 = w2) /\
  ((forall s, key <> word_key s) -> replace_tr key = key).
Proof.
  split; [apply replace_tr_word_key|].
  split; [apply word_key_inj | apply replace_tr_without_suffix].
Qed.

(* ----------------------------------------------------------------- *)
(** ** The counters and the exit status *)

(** X2.  The exit status of the script is 0 exactly when the input file
    exists, no kept record has a falsy definition, and the parser emitted
    a record for every line; in every other case it is 1. *)
Theorem exit_status_characterised (input : option (list line)) :
  (exit_code (main input) = 0 <->
   exists ls, input = Some ls /\ all_clean ls = true /\ forallb emitted ls = true) /\
  (exit_code (main input) = 0 \/ exit_code (main input) = 1).
Proof.
  destruct input as [ls|].
  - destruct (all_clean ls) eqn:Hc.
    + destruct (proj1 (all_clean_feed ls) Hc) as [st H].
      destruct (main_complete ls st H) as (_ & _ & _ & -> & _).
      destruct (feed_counters ls st H) as (_ & _ & Hw & Hsum).
      rewrite Hsum, Hw.
      destruct (records_length ls) as [_ Hlen].
      destruct (N.of_nat (List.length (records ls)) =? N.of_nat (List.length ls)) eqn:E.
      * apply N.eqb_eq in E. apply Nat2N.inj in E. apply Hlen in E.
        split; [|left; reflexivity].
        split; [intros _; exists ls; auto | reflexivity].
      * apply N.eqb_neq in E. split; [|right; reflexivity].
        split; [discriminate|]. intros [ls' ([= <-] & _ & He)].
        apply Hlen in He. rewrite He in E. contradiction.
    + destruct (not_clean_feed ls Hc) as [st H].
      destruct (main_halted ls 1 st H) as (-> & _).
      split; [|right; reflexivity].
      split; [discriminate|]. intros [ls' ([= <-] & Hc' & _)]. congruence.
  - split; [|right; reflexivity].
    split; [discriminate | intros [ls (H & _)]; discriminate].
Qed.

(* ----------------------------------------------------------------- *)
(** ** The console *)

Lemma writeWord_store_console (r : word_json) (st : state) :
  test_non_lower (word r) = false ->
  some js_not (Out.defs (build_out_obj r)) = false ->
  exists st',
    writeWord r st = Continue st' /\
    written st' = written st + 1 /\
    console st' =
      if (written st + 1) mod 5000 =? 0
      then console st ++ [log_processed (written st + 1) (skipped st)]
      else console st.
Proof.
  intros Ht Hs. unfold writeWord. rewrite Ht, Hs, build_out_obj_length.
  cbv zeta.
  destruct (words_set_or_push (word_key (word r)) (build_out_obj r) (words st))
    as [entries [Hget Hset]].
  cbn [words set_words]. rewrite Hget. cbn [words set_words].
  eexists; split; [reflexivity|].
  cbn [written set_written set_words].
  destruct (_ =? 0); cbn; auto.
Qed.

Lemma div_5000_succ (w : N) :
  (w + 1) / 5000 = w / 5000 + (if (w + 1) mod 5000 =? 0 then 1 else 0).
Proof.
  pose proof (N.div_mod w 5000 ltac:(lia)) as Hw.
  pose proof (N.mod_lt w 5000 ltac:(lia)) as Hlt.
  pose proof (N.div_mod (w + 1) 5000 ltac:(lia)) as Hw1.
  pose proof (N.mod_lt (w + 1) 5000 ltac:(lia)) as Hlt1.
  destruct ((w + 1) mod 5000 =? 0) eqn:E;
    [apply N.eqb_eq in E | apply N.eqb_neq in E];
    revert Hw Hlt Hw1 Hlt1 E;
    generalize (w / 5000) (w mod 5000) ((w + 1) / 5000) ((w + 1) mod 5000);
    intros q m q1 m1; lia.
Qed.

(** The console during the parse phase: nothing but progress notices,
    one for every 5000 records stored. *)
Lemma feed_console (ls : list line) (st st' : state) :
  feed ls st = Continue st' ->
  progress_notices (console st) = written st / 5000 /\
  Forall (fun e => exists w s, e = log_processed w s /\ w mod 5000 = 0 /\ 0 < w)
         (console st) ->
  progress_notices (console st') = written st' / 5000 /\
  Forall (fun e => exists w s, e = log_processed w s /\ w mod 5000 = 0 /\ 0 < w)
         (console st').
Proof.
  revert st; induction ls as [|l ls IH]; intros st; cbn [feed].
  - intros [= <-] H; exact H.
  - destruct l as [r|]; cbn [on_line]; [|intros H; apply (IH _ H)].
    destruct (test_non_lower (word r)) eqn:Ht.
    + rewrite (writeWord_skip r _ Ht). intros H; apply (IH _ H).
    + destruct (some js_not (Out.defs (build_out_obj r))) eqn:Hs.
      * rewrite (writeWord_exit r _ Ht Hs). discriminate.
      * destruct (writeWord_store_console r (set_writable (writable st + 1) st) Ht Hs)
          as (st1 & E & Hw & Hc).
        rewrite E. intros H [Hn Hall]. apply (IH _ H).
        cbn in Hw, Hc. rewrite Hw, Hc, div_5000_succ.
        destruct ((written st + 1) mod 5000 =? 0) eqn:E5.
        -- split.
           ++ unfold progress_notices in *. rewrite filter_app, length_app.
              cbn [filter is_progress List.length]. lia.
           ++ apply Forall_app; split; [exact Hall|].
              constructor; [|constructor].
              apply N.eqb_eq in E5. exists (written st + 1), (skipped st).
              repeat split; [exact E5 | lia].
        -- split; [rewrite N.add_0_r; exact Hn | exact Hall].
Qed.

Lemma progress_only (c : list console_event) :
  Forall (fun e => exists w s, e = log_processed w s /\ w mod 5000 = 0 /\ 0 < w) c ->
  forallb is_progress c = true.
Proof.
  intros H. apply forallb_forall. rewrite Forall_forall in H.
  intros e He. destruct (H e He) as (w & s & -> & _). reflexivity.
Qed.

(** X3.  In a run that is not halted the console shows, after the
    progress notices, the separator and the two banners, the separator
    again and then the summary with the true figures: the number of
    lines read, of records stored, of records skipped, of records
    received, and of keys in the map.  The error about unprocessed words
    follows exactly when some line gave no record; the number of lines
    written to the file is the last figure when it does not follow, and
    0 when it does. *)
Theorem summary_is_accurate (ls : list line) :
  all_clean ls = true ->
  exists notices,
    forallb is_progress notices = true /\
    console (final (main (Some ls))) =
      notices
      ++ [log_separator; log_sorting; log_writing; log_separator;
          summary_of ls
            (List.length (Object_keys (words (final (main (Some ls))))))]
      ++ (if forallb emitted ls then [] else [error_not_all_processed]) /\
    List.length (output (main (Some ls))) =
      (if forallb emitted ls
       then List.length (Object_keys (words (final (main (Some ls)))))
       else 0%nat).
Proof.
  intros Hc. apply all_clean_feed in Hc as [st H].
  destruct (feed_console ls init st H) as [_ Hall].
  { split; [reflexivity | constructor]. }
  exists (console st). split; [apply progress_only; exact Hall|].
  destruct (main_complete ls st H) as (_ & Hw & _ & _ & Hcon).
  rewrite Hcon, Hw, (output_complete ls st H).
  destruct (feed_counters ls st H) as (Hwr & Hs & Hl & Hsum).
  unfold summary_of. rewrite Hsum, <- Hwr, <- Hs, <- Hl.
  split; [reflexivity|].
  destruct (forallb emitted ls); [|reflexivity].
  unfold end_lines. rewrite length_map.
  symmetry. apply Permutation_length, sort_perm.
Qed.

Lemma summary_is_accurate_witness :
  all_clean [Some cat; Some Dog; None; Some run_noun; Some run_verb] = true /\
  exists notices,
    forallb is_progress notices = true /\
    console (final (main (Some [Some cat; Some Dog; None; Some run_noun;
                                Some run_verb]))) =
      notices
      ++ [log_separator; log_sorting; log_writing; log_separator;
          summary_of [Some cat; Some Dog; None; Some run_noun; Some run_verb]
            (List.length
               (Object_keys
                  (words (final (main (Some [Some cat; Some Dog; None;
                                             Some run_noun; Some run_verb]))))))]
      ++ (if forallb emitted [Some cat; Some Dog; None; Some run_noun; Some run_verb]
          then [] else [error_not_all_processed]) /\
    List.length (output (main (Some [Some cat; Some Dog; None; Some run_noun;
                                     Some run_verb]))) =
      (if forallb emitted [Some cat; Some Dog; None; Some run_noun; Some run_verb]
       then List.length
              (Object_keys
                 (words (final (main (Some [Some cat; Some Dog; None;
                                            Some run_noun; Some run_verb])))))
       else 0%nat).
Proof.
  split; [reflexivity|].
  apply (summary_is_accurate [Some cat; Some Dog; None; Some run_noun; Some run_verb]).
  reflexivity.
Defined.

(** X4.  In a run that reaches the Writer, a progress notice was printed
    once for every 5000 records stored: their number is the number of
    kept records divided by 5000, and each of them shows a positive
    multiple of 5000. *)
Theorem progress_notice_every_5000 (ls : list line) :
  all_clean ls = true ->
  progress_notices (console (final (main (Some ls)))) =
    N.of_nat (List.length (filter kept (records ls))) / 5000 /\
  forall w s, In (log_processed w s) (console (final (main (Some ls)))) ->
              w mod 5000 = 0 /\ 0 < w.
Proof.
  intros Hc. apply all_clean_feed in Hc as [st H].
  destruct (feed_console ls init st H) as [Hn Hall].
  { split; [reflexivity | constructor]. }
  destruct (feed_counters ls st H) as (Hw & _).
  destruct (main_complete ls st H) as (_ & _ & _ & _ & Hcon).
  rewrite Hcon. split.
  - unfold progress_notices in *. rewrite filter_app, length_app.
    destruct (forallb emitted ls);
      cbn [filter is_progress app List.length]; rewrite <- Hw, <- Hn;
      f_equal; lia.
  - intros w s Hin. apply in_app_iff in Hin as [Hin|Hin].
    + rewrite Forall_forall in Hall.
      destruct (Hall _ Hin) as (w' & s' & [= -> ->] & Hm & Hp). auto.
    + destruct (forallb emitted ls); cbn in Hin;
        repeat (destruct Hin as [Hin|Hin]; [discriminate|]); destruct Hin.
Qed.

Lemma progress_notice_witness :
  all_clean [Some cat; Some Dog; Some run_noun] = true /\
  progress_notices (console (final (main (Some [Some cat; Some Dog; Some run_noun])))) =
    N.of_nat (List.length (filter kept (records [Some cat; Some Dog; Some run_noun])))
    / 5000.
Proof.
  split; [reflexivity|].
  apply (progress_notice_every_5000 [Some cat; Some Dog; Some run_noun]).
  reflexivity.
Defined.

(** With 5000 records to store, one notice is printed, at the 5000th. *)
Example progress_at_5000 :
  filter is_progress
    (console (final (main (Some (repeat (Some cat) (N.to_nat 5000)))))) =
  [log_processed 5000 0].
Proof. vm_compute. reflexivity. Qed.

(* ----------------------------------------------------------------- *)
(** ** The text of the lines *)

Lemma hex_digit_above_c0 (d : N) : above_c0 (hex_digit d).
Proof. unfold above_c0, hex_digit. destruct (d <? 10); lia. Qed.

Lemma unicode_escape_above_c0 (c : code_unit) :
  Forall above_c0 (unicode_escape c).
Proof.
  unfold unicode_escape.
  repeat constructor; try apply hex_digit_above_c0; unfold above_c0; lia.
Qed.

Lemma escape_unit_above_c0 (c : code_unit) : Forall above_c0 (escape_unit c).
Proof.
  unfold escape_unit.
  repeat match goal with
         | |- context [if ?b then _ else _] => destruct b eqn:?
         end;
    try apply unicode_escape_above_c0;
    try (repeat constructor; unfold above_c0; lia).
  apply orb_false_iff in Heqb6 as [Hlt _]. apply N.ltb_ge in Hlt.
  repeat constructor. exact Hlt.
Qed.

Lemma quote_body_above_c0 (s : jsstring) : Forall above_c0 (quote_body s).
Proof.
  assert (H : forall n s, (List.length s <= n)%nat -> Forall above_c0 (quote_body s)).
  { induction n as [|n IH]; intros [|c rest] Hlen; try (constructor; fail);
      [simpl in Hlen; lia|].
    simpl in Hlen. cbn [quote_body].
    destruct (is_high_surrogate c) eqn:Hh.
    - unfold is_high_surrogate in Hh. apply andb_true_iff in Hh as [Hh _].
      apply N.leb_le in Hh.
      destruct rest as [|d rest'].
      + apply unicode_escape_above_c0.
      + destruct (is_low_surrogate d) eqn:Hl.
        * unfold is_low_surrogate in Hl. apply andb_true_iff in Hl as [Hl _].
          apply N.leb_le in Hl.
          constructor; [unfold above_c0; lia|].
          constructor; [unfold above_c0; lia|].
          apply IH. simpl in Hlen. lia.
        * apply Forall_app; split; [apply unicode_escape_above_c0|].
          apply IH. lia.
    - apply Forall_app; split; [apply escape_unit_above_c0|].
      apply IH. lia. }
  apply (H (List.length s)). apply le_n.
Qed.

Lemma quote_above_c0 (s : jsstring) : Forall above_c0 (quote s).
Proof.
  unfold quote. apply Forall_app; split; [repeat constructor; unfold above_c0; lia|].
  apply Forall_app; split; [apply quote_body_above_c0|].
  repeat constructor; unfold above_c0; lia.
Qed.

Lemma js_above_c0_literals :
  Forall above_c0 (js "null") /\ Forall above_c0 (js "[") /\
  Forall above_c0 (js "]") /\ Forall above_c0 (js ",") /\
  Forall above_c0 (js "{") /\ Forall above_c0 (js "}") /\
  Forall above_c0 (js ":").
Proof. repeat split; repeat constructor; unfold above_c0; cbn; lia. Qed.

(** [JSON.stringify] never emits a code unit below 0x20: inside
    strings they are all escaped, and there is no indentation. *)
Lemma render_above_c0 : forall j : json, Forall above_c0 (render j).
Proof.
  destruct js_above_c0_literals as (Hnull & Hlb & Hrb & Hcomma & Hlc & Hrc & Hcolon).
  fix IH 1. intros [|s|items|members]; cbn [render].
  - exact Hnull.
  - apply quote_above_c0.
  - apply Forall_app; split; [exact Hlb|].
    apply Forall_app; split; [|exact Hrb].
    induction items as [|x l IHl]; [constructor|].
    destruct l as [|y l]; [apply IH|].
    apply Forall_app; split; [apply IH|].
    apply Forall_app; split; [exact Hcomma | exact IHl].
  - apply Forall_app; split; [exact Hlc|].
    apply Forall_app; split; [|exact Hrc].
    induction members as [|[k v] l IHl]; [constructor|].
    destruct l as [|y l].
    + apply Forall_app; split; [apply quote_above_c0|].
      apply Forall_app; split; [exact Hcolon | apply IH].
    + apply Forall_app; split; [apply quote_above_c0|].
      apply Forall_app; split; [exact Hcolon|].
      apply Forall_app; split; [apply IH|].
      apply Forall_app; split; [exact Hcomma | exact IHl].
Qed.

(** X5.  Every line written to [defs.json] is a single line: before
    the final line feed its text has no code unit below 0x20, so no line
    feed and no carriage return, whatever the strings of the record
    hold, and the file has exactly one line feed per key written. *)
Theorem written_lines_are_single_lines (res : result) :
  (forall v, exists body,
      stringify_line v = body ++ [10] /\ Forall above_c0 body /\ ~ In 10 body) /\
  count_occ N.eq_dec (file_text res) 10 = List.length (output res).
Proof.
  assert (Hno : forall v, ~ In 10 (render (json_of_line v))).
  { intros v Hin. pose proof (render_above_c0 (json_of_line v)) as Hp.
    rewrite Forall_forall in Hp. specialize (Hp 10 Hin).
    unfold above_c0 in Hp. lia. }
  split.
  - intros v. exists (render (json_of_line v)).
    split; [reflexivity|]. split; [apply render_above_c0 | apply Hno].
  - unfold file_text. generalize (output res). intros l.
    induction l as [|v l IH]; [reflexivity|].
    cbn [flat_map List.length].
    assert (H1 : count_occ N.eq_dec (stringify_line v) 10 = 1%nat).
    { unfold stringify_line.
      pose proof (proj1 (count_occ_not_In N.eq_dec _ _) (Hno v)) as H0.
      pose proof (count_occ_app N.eq_dec (render (json_of_line v)) [10] 10) as Ha.
      pose proof (count_occ_cons_eq N.eq_dec [] (eq_refl 10)) as H10.
      cbn [count_occ] in H10.
      exact (eq_trans Ha (eq_trans (f_equal2 Nat.add H0 H10) eq_refl)). }
    pose proof (count_occ_app N.eq_dec (stringify_line v)
                              (flat_map stringify_line l) 10) as Ha.
    exact (eq_trans Ha (f_equal2 Nat.add H1 IH)).
Qed.

(* ----------------------------------------------------------------- *)
(** ** What the output depends on *)

Lemma feed_get (ls : list line) (st : state) (w : jsstring) :
  feed ls init = Continue st -> test_non_lower w = false ->
  In (word_key w) (Object_keys (words st)) ->
  words_get (word_key w) (words st) = Some (map build_out_obj (records_of w ls)).
Proof.
  intros H Hw Hin.
  pose proof (feed_entries ls st w H Hw) as He. unfold entries_at in He.
  apply words_get_In in Hin as [v Hv]. rewrite Hv in He |- *. congruence.
Qed.

Lemma feed_key_records (ls : list line) (st : state) (key : jsstring) :
  feed ls init = Continue st ->
  In key (Object_keys (words st)) <->
  exists w, key = word_key w /\ test_non_lower w = false /\ records_of w ls <> [].
Proof.
  intros H. destruct (feed_keys ls st H) as [_ Hkeys]. rewrite Hkeys. split.
  - intros [r (Hin & Hk & ->)]. exists (word r).
    unfold kept in Hk. destruct (test_non_lower (word r)) eqn:Ht; [discriminate|].
    repeat split. intros Hnil.
    assert (Hr : In r (records_of (word r) ls)).
    { apply filter_In. split; [exact Hin | apply str_eqb_refl]. }
    rewrite Hnil in Hr. destruct Hr.
  - intros [w (-> & Hw & Hne)].
    destruct (records_of w ls) as [|r rs] eqn:E; [congruence|].
    assert (Hr : In r (records_of w ls)) by (rewrite E; left; reflexivity).
    apply filter_In in Hr as [Hr Hrw]. apply str_eqb_eq in Hrw.
    exists r. unfold kept. rewrite Hrw, Hw. auto.
Qed.

(** X6.  What a run that is not halted writes depends only on whether
    every line gave a record, on the records each word over [a-z] has and
    on their order within the word: two inputs that agree on these write
    the same lines, however their records of different words are
    interleaved and whatever skipped records they hold. *)
Theorem output_depends_on_records_per_word (ls ls' : list line) :
  all_clean ls = true -> all_clean ls' = true ->
  forallb emitted ls = forallb emitted ls' ->
  (forall w, test_non_lower w = false -> records_of w ls = records_of w ls') ->
  output (main (Some ls)) = output (main (Some ls')).
Proof.
  intros Hc Hc' Hem Hsame.
  apply all_clean_feed in Hc as [st H]. apply all_clean_feed in Hc' as [st' H'].
  rewrite (output_complete ls st H), (output_complete ls' st' H'), <- Hem.
  destruct (forallb emitted ls); [|reflexivity].
  unfold end_lines.
  assert (Hkeys : forall key, In key (Object_keys (words st)) <->
                              In key (Object_keys (words st'))).
  { intros key. rewrite (feed_key_records ls st key H),
                        (feed_key_records ls' st' key H').
    split; intros [w (Hk & Hw & Hne)]; exists w; repeat split; auto.
    - rewrite <- (Hsame w Hw); exact Hne.
    - rewrite (Hsame w Hw); exact Hne. }
  assert (Hsort : sort (Object_keys (words st')) = sort (Object_keys (words st))).
  { apply sort_unique; [|apply sort_sorted].
    rewrite <- (sort_perm (Object_keys (words st'))).
    apply NoDup_Permutation;
      [apply (feed_keys ls st H) | apply (feed_keys ls' st' H') | exact Hkeys]. }
  rewrite Hsort. apply map_ext_in. intros key Hin.
  apply (Permutation_in _ (Permutation_sym (sort_perm _))) in Hin.
  pose proof (proj1 (Hkeys key) Hin) as Hin'.
  destruct (proj1 (feed_key_records ls st key H) Hin) as [w (-> & Hw & _)].
  unfold line_value.
  rewrite (feed_get ls st w H Hw Hin), (feed_get ls' st' w H' Hw Hin'), (Hsame w Hw).
  reflexivity.
Qed.

Lemma output_depends_witness :
  all_clean [Some run_noun; Some Dog; Some cat; Some run_verb] = true /\
  all_clean [Some cat; Some run_noun; Some run_verb] = true /\
  forallb emitted [Some run_noun; Some Dog; Some cat; Some run_verb] =
  forallb emitted [Some cat; Some run_noun; Some run_verb] /\
  output (main (Some [Some run_noun; Some Dog; Some cat; Some run_verb])) =
  output (main (Some [Some cat; Some run_noun; Some run_verb])) /\
  List.length (output (main (Some [Some cat; Some run_noun; Some run_verb]))) = 2%nat.
Proof.
  split; [reflexivity|]. split; [reflexivity|]. split; [reflexivity|].
  split; [|reflexivity].
  apply (output_depends_on_records_per_word
           [Some run_noun; Some Dog; Some cat; Some run_verb]
           [Some cat; Some run_noun; Some run_verb]);
    [reflexivity | reflexivity | reflexivity |].
  intros w Hw. unfold records_of.
  change (records [Some run_noun; Some Dog; Some cat; Some run_verb])
    with [run_noun; Dog; cat; run_verb].
  change (records [Some cat; Some run_noun; Some run_verb])
    with [cat; run_noun; run_verb].
  cbn [filter].
  destruct (str_eqb (word Dog) w) eqn:ED.
  { apply str_eqb_eq in ED. subst w. discriminate Hw. }
  destruct (str_eqb (word cat) w) eqn:EC; [|reflexivity].
  apply str_eqb_eq in EC. subst w. reflexivity.
Defined.

(* ----------------------------------------------------------------- *)
(** ** A halted run *)

(** X7.  When a kept record has a falsy definition and nothing before it
    did, the run ends at that record: the lines after it have no effect
    on the outcome, the last thing on the console is the error naming
    that word and record, and the map holds the records before it
    only. *)
Theorem halted_run_ignores_the_rest (before after : list line) (r : word_json) :
  all_clean before = true ->
  test_non_lower (word r) = false ->
  In [] (Out.defs (build_out_obj r)) ->
  main (Some (before ++ Some r :: after)) = main (Some (before ++ [Some r])) /\
  words (final (main (Some (before ++ Some r :: after)))) =
    aggregate (filter kept (records before)) [] /\
  exists notices,
    forallb is_progress notices = true /\
    console (final (main (Some (before ++ Some r :: after)))) =
      notices ++ [error_bad_def (word r) (build_out_obj r) r].
Proof.
  intros Hb Ht Hbad. apply all_clean_feed in Hb as [st Hb].
  apply some_js_not in Hbad.
  assert (Hfeed : forall rest,
             feed (before ++ Some r :: rest) init =
             Exit 1 (print (error_bad_def (word r) (build_out_obj r) r)
                           (set_writable (writable st + 1) st))).
  { intros rest. rewrite feed_app, Hb. cbn [feed on_line].
    rewrite (writeWord_exit r _ Ht Hbad). reflexivity. }
  split; [unfold main; rewrite !Hfeed; reflexivity|].
  unfold main. rewrite Hfeed. cbn [finish final words console print set_writable].
  split.
  - apply feed_Continue in Hb as (_ & _ & _ & Hw & _). exact Hw.
  - exists (console st). split; [|reflexivity].
    apply progress_only.
    apply (feed_console before init st Hb).
    split; [reflexivity | constructor].
Qed.

Lemma halted_run_witness :
  all_clean [Some cat; Some Dog] = true /\
  test_non_lower (word empty_def) = false /\
  In [] (Out.defs (build_out_obj empty_def)) /\
  main (Some ([Some cat; Some Dog] ++ Some empty_def :: [Some run_noun; None])) =
  main (Some ([Some cat; Some Dog] ++ [Some empty_def])).
Proof.
  split; [reflexivity|]. split; [reflexivity|]. split; [left; reflexivity|].
  apply (halted_run_ignores_the_rest [Some cat; Some Dog] [Some run_noun; None]
                                     empty_def);
    [reflexivity | reflexivity | left; reflexivity].
Defined.

(* ----------------------------------------------------------------- *)
(** ** The map only grows *)

Lemma extends_same_words (st st' : state) :
  words st' = words st -> extends st st'.
Proof.
  intros Hw. unfold extends. rewrite Hw.
  split; [exists [] | intros key; exists []]; rewrite app_nil_r; reflexivity.
Qed.

Lemma extends_refl (st : state) : extends st st.
Proof. apply extends_same_words; reflexivity. Qed.

Lemma extends_trans (st1 st2 st3 : state) :
  extends st1 st2 -> extends st2 st3 -> extends st1 st3.
Proof.
  intros [[k1 H1] E1] [[k2 H2] E2]. split.
  - exists (k1 ++ k2). rewrite H2, H1, app_assoc. reflexivity.
  - intros key. destruct (E1 key) as [x1 Hx1]. destruct (E2 key) as [x2 Hx2].
    exists (x1 ++ x2). rewrite Hx2, Hx1, app_assoc. reflexivity.
Qed.

Lemma writeWord_extends (r : word_json) (st : state) :
  extends st (state_of (writeWord r st)) /\
  defs_json (state_of (writeWord r st)) = defs_json st.
Proof.
  destruct (writeWord_cases r st)
    as [[Ht E]|[[Ht [Hs E]]|[Ht [Hs [st1 [E Hst]]]]]]; rewrite E; cbn [state_of].
  - split; [apply extends_same_words | ]; reflexivity.
  - split; [apply extends_same_words | ]; reflexivity.
  - destruct Hst as (S1 & _ & _ & _ & S5 & _). split; [|exact S5].
    split.
    + rewrite S1. unfold words_push. rewrite Object_keys_set.
      destruct (words_get (word_key (word r)) (words st));
        [exists []; rewrite app_nil_r | eexists]; reflexivity.
    + intros key. rewrite S1, entries_at_push. eexists; reflexivity.
Qed.

(** X8.  From any state, the parse phase only adds to the map: however
    it ends, the keys it found are still there, first and in the same
    order, the array of every key starts with the entries it held, and
    [defs.json] has not been touched. *)
Theorem parse_phase_only_appends (ls : list line) (st : state) :
  extends st (state_of (feed ls st)) /\
  defs_json (state_of (feed ls st)) = defs_json st.
Proof.
  revert st; induction ls as [|l ls IH]; intros st; cbn [feed].
  - split; [apply extends_refl | reflexivity].
  - assert (H1 : extends st (state_of (on_line l st)) /\
                 defs_json (state_of (on_line l st)) = defs_json st).
    { destruct l as [r|]; cbn [on_line].
      - destruct (writeWord_extends r (set_writable (writable st + 1) st)) as [He Hd].
        split; [|exact Hd].
        eapply extends_trans; [|exact He]. apply extends_same_words; reflexivity.
      - split; [apply extends_same_words | ]; reflexivity. }
    destruct (on_line l st) as [st1|c st1|st1]; cbn [state_of] in *; try exact H1.
    destruct H1 as [He Hd]. destruct (IH st1) as [He' Hd'].
    split; [eapply extends_trans; eauto | congruence].
Qed.

(* ----------------------------------------------------------------- *)
(** ** Every stored record is written once *)

Lemma total_entries_push (key : jsstring) (o : out_obj) (ws : words_t) :
  total_entries (words_push key o ws) = S (total_entries ws).
Proof.
  unfold words_push, total_entries.
  induction ws as [|[k v] ws IH]; [reflexivity|].
  cbn [words_get words_set].
  destruct (str_eqb k key); cbn [map list_sum fold_right snd].
  - rewrite length_app. cbn [List.length]. lia.
  - unfold list_sum in IH. rewrite IH. cbn [fold_right map snd]. lia.
Qed.

Lemma total_entries_aggregate (rs : list word_json) (ws : words_t) :
  total_entries (aggregate rs ws) = (total_entries ws + List.length rs)%nat.
Proof.
  revert ws; induction rs as [|r rs IH]; intros ws; cbn [aggregate fold_left List.length].
  - lia.
  - change (fold_left _ rs ?w) with (aggregate rs w).
    rewrite IH, total_entries_push. lia.
Qed.

Lemma list_sum_perm (l l' : list nat) :
  Permutation l l' -> list_sum l = list_sum l'.
Proof.
  unfold list_sum. induction 1; cbn [fold_right]; lia.
Qed.

Lemma entries_at_keys (ws : words_t) :
  NoDup (Object_keys ws) ->
  map (fun key => List.length (entries_at key ws)) (Object_keys ws) =
  map (fun p => List.length (snd p)) ws.
Proof.
  unfold Object_keys. induction ws as [|[k v] ws IH]; intros Hnd; [reflexivity|].
  inversion Hnd as [|? ? Hnotin Hnd']; subst.
  cbn [map fst snd]. f_equal.
  - unfold entries_at. cbn [words_get]. rewrite str_eqb_refl. reflexivity.
  - rewrite <- (IH Hnd'). apply map_ext_in. intros key Hin.
    unfold entries_at. cbn [words_get].
    destruct (str_eqb k key) eqn:E; [|reflexivity].
    apply str_eqb_eq in E. subst. contradiction.
Qed.

(** X9.  In a run that is not halted and in which the parser emitted
    a record for every line (so that the counters agree and the file is
    written), the entries of all written lines together are as many as
    the records that passed the filter: every stored record is written
    once, none is lost and none is written twice. *)
Theorem every_kept_record_written_once (ls : list line) :
  all_clean ls = true ->
  forallb emitted ls = true ->
  list_sum (map line_entries (output (main (Some ls)))) =
  List.length (filter kept (records ls)).
Proof.
  intros Hc He. apply all_clean_feed in Hc as [st H].
  rewrite (output_complete ls st H), He. unfold end_lines. rewrite map_map.
  destruct (feed_keys ls st H) as [Hnd _].
  rewrite (map_ext _ (fun key => List.length (entries_at key (words st))))
    by (intros key; unfold line_entries, line_value, entries_at; cbn [snd];
        destruct (words_get key (words st)); reflexivity).
  rewrite <- (list_sum_perm _ _
                (Permutation_map _ (sort_perm (Object_keys (words st))))).
  rewrite (entries_at_keys (words st) Hnd).
  apply feed_Continue in H as (_ & _ & _ & Hw & _).
  change (list_sum (map (fun p => List.length (snd p)) (words st)))
    with (total_entries (words st)).
  rewrite Hw, total_entries_aggregate. reflexivity.
Qed.

Lemma every_kept_record_witness :
  all_clean [Some run_noun; Some Dog; Some cat; Some run_verb] = true /\
  forallb emitted [Some run_noun; Some Dog; Some cat; Some run_verb] = true /\
  list_sum (map line_entries
              (output (main (Some [Some run_noun; Some Dog; Some cat;
                                   Some run_verb])))) =
  List.length (filter kept (records [Some run_noun; Some Dog; Some cat;
                                     Some run_verb])).
Proof.
  split; [reflexivity|]. split; [reflexivity|].
  apply (every_kept_record_written_once
           [Some run_noun; Some Dog; Some cat; Some run_verb]);
    reflexivity.
Defined.

(* ----------------------------------------------------------------- *)
(** ** No empty definition is written *)

(** X10.  Whatever the input, no entry written to [defs.json] has an
    empty string among its definitions. *)
Theorem no_empty_definition_written (input : option (list line)) :
  forall key entries o,
    In (key, Some entries) (output (main input)) -> In o entries ->
    ~ In [] (Out.defs o).
Proof.
  destruct input as [ls|]; [|intros key entries o []].
  destruct (all_clean ls) eqn:Hc.
  - pose proof (proj1 (all_clean_Forall ls) Hc) as Hall.
    apply all_clean_feed in Hc as [st H].
    rewrite (output_complete ls st H).
    destruct (forallb emitted ls); [|intros key entries o []].
    unfold end_lines, line_value. intros key entries o Hin Ho.
    apply in_map_iff in Hin as [k [[= _ Hget] Hk]].
    apply (Permutation_in _ (Permutation_sym (sort_perm _))) in Hk.
    destruct (proj1 (feed_key_records ls st k H) Hk) as [w (-> & Hw & _)].
    rewrite (feed_get ls st w H Hw Hk) in Hget. injection Hget as <-.
    apply in_map_iff in Ho as [r [<- Hr]].
    apply filter_In in Hr as [Hr Hrw]. apply str_eqb_eq in Hrw.
    rewrite Forall_forall in Hall. specialize (Hall r Hr).
    unfold kept, clean in Hall. rewrite Hrw, Hw in Hall.
    specialize (Hall eq_refl). apply negb_true_iff in Hall.
    rewrite <- some_js_not. congruence.
  - destruct (not_clean_feed ls Hc) as [st H].
    unfold output. destruct (main_halted ls 1 st H) as (_ & -> & _).
    intros key entries o [].
Qed.

Lemma no_empty_definition_witness :
  In (js "cat", Some [build_out_obj cat]) (output (main (Some [Some cat; Some Dog]))) /\
  In (build_out_obj cat) [build_out_obj cat] /\
  ~ In [] (Out.defs (build_out_obj cat)).
Proof.
  split; [left; reflexivity|]. split; [left; reflexivity|].
  apply (no_empty_definition_written (Some [Some cat; Some Dog]) (js "cat")
           [build_out_obj cat] (build_out_obj cat));
    left; reflexivity.
Defined.

(* ----------------------------------------------------------------- *)
(** ** Every written key has entries *)

(** X11.  Whatever the input, every line written to [defs.json] carries
    an entry list, and that list is not empty: the Writer never finds
    [words[key]] undefined (which would be written as [null]) and never
    writes a key without entries. *)
Theorem written_keys_have_entries (input : option (list line)) :
  forall v, In v (output (main input)) ->
    exists o entries, snd v = Some (o :: entries).
Proof.
  destruct input as [ls|]; [|intros v []].
  destruct (all_clean ls) eqn:Hc.
  - apply all_clean_feed in Hc as [st H].
    rewrite (output_complete ls st H).
    destruct (forallb emitted ls); [|intros v []].
    unfold end_lines, line_value.
    intros v Hin. apply in_map_iff in Hin as [k [<- Hk]].
    apply (Permutation_in _ (Permutation_sym (sort_perm _))) in Hk.
    destruct (proj1 (feed_key_records ls st k H) Hk) as [w (-> & Hw & Hne)].
    cbn [snd]. rewrite (feed_get ls st w H Hw Hk).
    destruct (records_of w ls) as [|r rs]; [congruence|].
    cbn [map]. eauto.
  - destruct (not_clean_feed ls Hc) as [st H].
    unfold output. destruct (main_halted ls 1 st H) as (_ & -> & _).
    intros v [].
Qed.

Lemma written_keys_witness :
  In (js "cat", Some [build_out_obj cat]) (output (main (Some [Some cat; Some Dog]))) /\
  exists o entries, snd (js "cat", Some [build_out_obj cat]) = Some (o :: entries).
Proof.
  split; [left; reflexivity|].
  apply (written_keys_have_entries (Some [Some cat; Some Dog])
           (js "cat", Some [build_out_obj cat])).
  left; reflexivity.
Defined.
